(** * Vision Point WhatsApp automation bot: command grammar, chunkers and
      dispatch pipelines of [app.js], embedded shallowly.

    JavaScript strings are sequences of UTF-16 code units, and every length
    and regular expression of the program counts code units; a string is
    therefore a [list N].  Regular expressions are written with small
    backtracking combinators in continuation-passing style, greedy
    quantifiers trying the longest repetition first, as the engine does.
    Of the two listings of [app.js] the one with chunked synthesis
    ([splitScriptIntoChunks]) is the one embedded. *)

From Stdlib Require Import List ZArith NArith Lia Bool String Ascii.
From stdpp Require Import gmap list pretty.
Import ListNotations.

Abbreviation str := (list N).

(** ** Strings *)

(** An ASCII literal as a sequence of code units. *)
Definition u (s : string) : str :=
  List.map N_of_ascii (list_ascii_of_string s).

(** [WhiteSpace] and [LineTerminator] of ECMAScript: what [\s] matches and
    what [String.prototype.trim] strips. *)
Definition isWhiteSpace (c : N) : bool :=
  ((9 <=? c) && (c <=? 13) || (c =? 32) || (c =? 160) || (c =? 5760)
   || (8192 <=? c) && (c <=? 8202) || (c =? 8232) || (c =? 8233)
   || (c =? 8239) || (c =? 8287) || (c =? 12288) || (c =? 65279))%N.

(** [LineTerminator] alone: where [^] matches under the [m] flag. *)
Definition isLineTerminator (c : N) : bool :=
  ((c =? 10) || (c =? 13) || (c =? 8232) || (c =? 8233))%N.

Definition isDigit (c : N) : bool := ((48 <=? c) && (c <=? 57))%N.

Definition anyChar (_ : N) : bool := true.

Definition colon : N := 58.
Definition notColon (c : N) : bool := negb (c =? colon)%N.

Fixpoint trimStart (s : str) : str :=
  match s with
  | c :: s' => if isWhiteSpace c then trimStart s' else s
  | [] => []
  end.

Definition trimEnd (s : str) : str := rev (trimStart (rev s)).

(** [String.prototype.trim]. *)
Definition trim (s : str) : str := trimEnd (trimStart s).

(** A string is truthy when it is not empty. *)
Definition truthy (s : str) : bool :=
  match s with [] => false | _ :: _ => true end.

(** ** Regular expressions *)

(** [Canonicalize] of a code unit below 128 under the [i] flag (without
    [u]): its upper-case form.  A code unit from 128 on never canonicalizes
    to one below 128, so against the ASCII letters of a pattern only the two
    ASCII cases match; against a pattern code unit from 128 on that has no
    case (the surrogates of an emoji) only the code unit itself does. *)
Definition asciiUpper (c : N) : N :=
  if ((97 <=? c) && (c <=? 122))%N then (c - 32)%N else c.

Definition ci (p c : N) : bool := (asciiUpper c =? asciiUpper p)%N.

Section Combinators.
Context {A : Type}.

(** One character of a class. *)
Definition chr (p : N -> bool) (k : str -> option A) (s : str) : option A :=
  match s with
  | c :: s' => if p c then k s' else None
  | [] => None
  end.

(** A literal, each character compared by [eqc]. *)
Fixpoint lit (eqc : N -> N -> bool) (w : str) (k : str -> option A)
    (s : str) : option A :=
  match w with
  | [] => k s
  | p :: w' => chr (eqc p) (lit eqc w' k) s
  end.

(** Greedy star over a class: the longest run first, then shorter ones. *)
Fixpoint star (p : N -> bool) (k : str -> option A) (s : str) : option A :=
  match s with
  | c :: s' =>
      if p c then
        match star p k s' with
        | Some r => Some r
        | None => k s
        end
      else k s
  | [] => k []
  end.

(** Greedy plus over a class. *)
Definition plus (p : N -> bool) (k : str -> option A) (s : str) : option A :=
  chr p (star p k) s.

(** Greedy capturing star over a class: the continuation receives the
    capture. *)
Fixpoint capStar (p : N -> bool) (k : str -> str -> option A) (s : str)
    : option A :=
  match s with
  | c :: s' =>
      if p c then
        match capStar p (fun g => k (c :: g)) s' with
        | Some r => Some r
        | None => k [] s
        end
      else k [] s
  | [] => k [] []
  end.

(** Greedy capturing plus over a class. *)
Definition capPlus (p : N -> bool) (k : str -> str -> option A) (s : str)
    : option A :=
  match s with
  | c :: s' => if p c then capStar p (fun g => k (c :: g)) s' else None
  | [] => None
  end.

(** [$] without the [m] flag: the end of the input. *)
Definition eos (r : A) (s : str) : option A :=
  match s with [] => Some r | _ :: _ => None end.
End Combinators.

(** ** parseCommand *)

Inductive Command : Type :=
| Topic (content : str)
| Script (content : str)
| Visuals (content : str)
| VoicePerson (voiceName content : str)
| Voice (content : str)
| Agenda
| Number (number : Z).

(** [/^KEYWORD\s*:\s*([\s\S]+)$/i], the capture returned. *)
Definition matchKeyword (keyword : str) (text : str) : option str :=
  lit ci keyword
    (star isWhiteSpace
      (chr (N.eqb colon)
        (star isWhiteSpace
          (capPlus anyChar (fun g => eos g))))) text.

(** [/^voice\s+([^:]+)\s*:\s*([\s\S]+)$/i], the two captures returned. *)
Definition matchVoicePerson (text : str) : option (str * str) :=
  lit ci (u "voice")
    (plus isWhiteSpace
      (capPlus notColon (fun g1 =>
        star isWhiteSpace
          (chr (N.eqb colon)
            (star isWhiteSpace
              (capPlus anyChar (fun g2 => eos (g1, g2)))))))) text.

(** [/^agenda$/i]. *)
Definition matchAgenda (text : str) : option unit :=
  lit ci (u "agenda") (eos tt) text.

(** [/^(\d+)$/]. *)
Definition matchNumber (text : str) : option str :=
  capPlus isDigit (fun g => eos g) text.

(** [parseInt] of a string of decimal digits.  The program only compares the
    result with 1 and 10, where the exact integer and the double agree. *)
Definition parseInt (digits : str) : Z :=
  fold_left (fun acc c => (10 * acc + (Z.of_N c - 48))%Z) digits 0%Z.

Definition parseCommand (messageText : str) : option Command :=
  let text := trim messageText in
  match matchKeyword (u "topic") text with
  | Some g => Some (Topic (trim g))
  | None =>
  match matchKeyword (u "script") text with
  | Some g => Some (Script (trim g))
  | None =>
  match matchKeyword (u "visuals") text with
  | Some g => Some (Visuals (trim g))
  | None =>
  match matchVoicePerson text with
  | Some (g1, g2) => Some (VoicePerson (trim g1) (trim g2))
  | None =>
  match matchKeyword (u "voice") text with
  | Some g => Some (Voice (trim g))
  | None =>
  match matchAgenda text with
  | Some _ => Some Agenda
  | None =>
  match matchNumber text with
  | Some g =>
      let num := parseInt g in
      if ((1 <=? num) && (num <=? 10))%Z then Some (Number num) else None
  | None => None
  end end end end end end end.

(** ** String.prototype.split with a regular expression *)

(** A separator pattern tried at one position: it sees the code unit before
    the position (for a lookbehind) and the rest of the input, and answers
    with the length of the match and the captures that [split] splices into
    its result.  None of the program's separators matches the empty string. *)
Definition Separator : Type := option N -> str -> option (nat * list str).

(** [S.split(R)]: the scan moves one code unit at a time, tries the separator
    at each position, and on a match closes the current piece, emits the
    captures and resumes after the match ([skip] counts the code units of the
    match still to be passed over).  The result always ends with the piece
    that was open at the end of the input. *)
Fixpoint splitFrom (sep : Separator) (prev : option N) (skip : nat) (s : str)
    : list str :=
  match s with
  | [] => [[]]
  | c :: s' =>
      match skip with
      | S k => splitFrom sep (Some c) k s'
      | O =>
          match sep prev s with
          | Some (S n, caps) => [] :: caps ++ splitFrom sep (Some c) n s'
          | _ =>
              match splitFrom sep (Some c) 0 s' with
              | piece :: pieces => (c :: piece) :: pieces
              | [] => [[c]]
              end
          end
      end
  end.

Definition split (sep : Separator) (s : str) : list str :=
  splitFrom sep None 0 s.

(** The length of what a pattern consumed of [s] when [rest] is left. *)
Definition consumed (s rest : str) : nat := length s - length rest.

Definition newline : N := 10.

(** [/\n\s*\n/]: a blank-line paragraph boundary. *)
Definition paragraphBreak : Separator := fun _ s =>
  chr (N.eqb newline)
    (star isWhiteSpace
      (chr (N.eqb newline) (fun rest => Some (consumed s rest, [])))) s.

(** The class of Urdu full stop (U+06D4), Arabic question mark (U+061F)
    and exclamation mark. *)
Definition isSentenceEnd (c : N) : bool :=
  ((c =? 1748) || (c =? 1567) || (c =? 33))%N.

(** The capturing separator of one sentence-terminal character: the
    terminal itself is spliced into the result. *)
Definition sentenceEnd : Separator := fun _ s =>
  match s with
  | c :: _ => if isSentenceEnd c then Some (1, [[c]]) else None
  | [] => None
  end.

(** ** splitScriptIntoChunks *)

Definition isEmpty {A} (l : list A) : bool :=
  match l with [] => true | _ :: _ => false end.

Definition strlen (s : str) : Z := Z.of_nat (length s).

Definition minChunkSize : Z := 1050.
Definition targetChunkSize : Z := 1200.
Definition maxChunkSize : Z := 1650.

(** The paragraph separator the chunker joins with: two line feeds. *)
Definition blankLine : str := [newline; newline].

(** [remainder += sentences[j] + (sentences[j + 1] || '')] for [j] in steps
    of two. *)
Fixpoint joinSentences (sentences : list str) : str :=
  match sentences with
  | [] => []
  | [s0] => s0
  | s0 :: s1 :: rest => s0 ++ s1 ++ joinSentences rest
  end.

(** One step of the sentence walk of the paragraph pass: [sentence] is added
    to [bestBreakPoint]; when the size is in the window the walk stops with
    the break point and the remainder. *)
Definition tryBreak (bestBreakPoint sentence : str) (rest : list str)
    : str * option (str * str) :=
  let best := bestBreakPoint ++ sentence in
  if ((minChunkSize <=? strlen best) && (strlen best <=? maxChunkSize))%Z
  then (best, Some (best, joinSentences rest))
  else (best, None).

(** The sentence walk: [sentences] alternates text and terminal, as [split]
    returns it, and is visited two entries at a time. *)
Fixpoint sentenceBreak (bestBreakPoint : str) (sentences : list str)
    : option (str * str) :=
  match sentences with
  | [] => None
  | [s0] => snd (tryBreak bestBreakPoint s0 [])
  | s0 :: s1 :: rest =>
      match tryBreak bestBreakPoint (s0 ++ s1) rest with
      | (_, Some r) => Some r
      | (best, None) => sentenceBreak best rest
      end
  end.

(** The first half of the body of the paragraph pass: the paragraph joins
    the buffer, or the buffer is pushed and the paragraph starts the next
    one. *)
Definition addParagraph (paragraph : str) (st : list str * str)
    : list str * str :=
  let '(chunks, currentChunk) := st in
  if ((0 <? strlen currentChunk)
      && (maxChunkSize <? strlen currentChunk + strlen paragraph))%Z
  then
    if (minChunkSize <=? strlen currentChunk)%Z
    then (chunks ++ [trim currentChunk], paragraph)
    else (chunks, currentChunk ++ blankLine ++ paragraph)
  else if (strlen currentChunk =? 0)%Z then (chunks, paragraph)
  else (chunks, currentChunk ++ blankLine ++ paragraph).

(** The second half, the boundary detection; [more] is
    [paragraphIndex < paragraphs.length - 1]. *)
Definition detectBoundary (more : bool) (st : list str * str)
    : list str * str :=
  let '(chunks, currentChunk) := st in
  if (minChunkSize <=? strlen currentChunk)%Z then
    if ((targetChunkSize <=? strlen currentChunk)%Z && more)
    then (chunks ++ [trim currentChunk], [])
    else if ((maxChunkSize - 200 <=? strlen currentChunk)%Z && more)
    then
      match sentenceBreak [] (split sentenceEnd currentChunk) with
      | Some (bestBreakPoint, remainder) =>
          (chunks ++ [trim bestBreakPoint], trim remainder)
      | None => (chunks, currentChunk)
      end
    else (chunks, currentChunk)
  else (chunks, currentChunk).

(** The paragraph pass.  [paragraphs] is the part of the array still to be
    visited, so that something follows the paragraph at hand exactly when
    its index is below [paragraphs.length - 1]. *)
Fixpoint paragraphLoop (paragraphs : list str) (st : list str * str)
    : list str * str :=
  match paragraphs with
  | [] => st
  | raw :: rest =>
      let paragraph := trim raw in
      if negb (truthy paragraph) then paragraphLoop rest st
      else
        let more := negb (isEmpty rest) in
        paragraphLoop rest (detectBoundary more (addParagraph paragraph st))
  end.

(** One step of the sentence-only pass. *)
Definition sentenceStep (sentence : str) (st : list str * str)
    : list str * str :=
  let '(chunks, currentChunk) := st in
  let '(chunks1, current1) :=
    if ((0 <? strlen currentChunk)
        && (maxChunkSize <? strlen currentChunk + strlen sentence))%Z
    then (chunks ++ [trim currentChunk], sentence)
    else (chunks, currentChunk ++ sentence) in
  if (targetChunkSize <=? strlen current1)%Z
  then (chunks1 ++ [trim current1], [])
  else (chunks1, current1).

(** The sentence-only pass, two entries of [sentences] at a time. *)
Fixpoint sentenceLoop (sentences : list str) (st : list str * str)
    : list str * str :=
  match sentences with
  | [] => st
  | [s0] => sentenceStep s0 st
  | s0 :: s1 :: rest => sentenceLoop rest (sentenceStep (s0 ++ s1) st)
  end.

(** [chunks.push(currentChunk.trim())] when the trimmed text is not empty. *)
Definition pushRest (st : list str * str) : list str :=
  let '(chunks, currentChunk) := st in
  if truthy (trim currentChunk) then chunks ++ [trim currentChunk] else chunks.

(** The chunker.  None of its string operations can throw on a string, so the
    [catch] branch is never taken. *)
Definition splitScriptIntoChunks (script : str) : list str :=
  if negb (truthy script) then []
  else
    let paragraphs := split paragraphBreak script in
    let chunks := pushRest (paragraphLoop paragraphs ([], [])) in
    let chunks :=
      if (isEmpty chunks && (maxChunkSize <? strlen script)%Z)
      then pushRest (sentenceLoop (split sentenceEnd script) (chunks, []))
      else chunks in
    if isEmpty chunks then [script] else chunks.

(** ** chunkText *)

(** The class of the distribution chunker's lookbehind: Urdu full stop,
    exclamation mark and the ASCII question mark. *)
Definition isTextEnd (c : N) : bool :=
  ((c =? 1748) || (c =? 33) || (c =? 63))%N.

(** Whitespace that follows a sentence terminal: a lookbehind on the code
    unit before the position, then a greedy run of whitespace. *)
Definition afterTextEnd : Separator := fun prev s =>
  match prev with
  | Some p =>
      if isTextEnd p
      then plus isWhiteSpace (fun rest => Some (consumed s rest, [])) s
      else None
  | None => None
  end.

Definition space : N := 32.

(** The body of the loop of [chunkText]. *)
Definition addSentence (maxSize : Z) (sentence : str) (st : list str * str)
    : list str * str :=
  let '(chunks, currentChunk) := st in
  let '(chunks1, current1) :=
    if (maxSize <? strlen currentChunk + strlen sentence)%Z then
      if truthy currentChunk
      then (chunks ++ [trim currentChunk], [])
      else (chunks, currentChunk)
    else (chunks, currentChunk) in
  (chunks1, current1 ++ sentence ++ [space]).

Definition chunkLoop (maxSize : Z) (sentences : list str)
    (st : list str * str) : list str * str :=
  fold_left (fun st sentence => addSentence maxSize sentence st) sentences st.

Definition chunkText (text : str) (maxSize : Z) : list str :=
  let sentences := split afterTextEnd text in
  let chunks := pushRest (chunkLoop maxSize sentences ([], [])) in
  if isEmpty chunks then [text] else chunks.

(** ** extractScriptAndVisuals *)

Section MoreCombinators.
Context {A : Type}.

(** Lazy capturing star over a class: the shortest capture first. *)
Fixpoint capLazy (p : N -> bool) (k : str -> str -> option A) (s : str)
    : option A :=
  match k [] s with
  | Some r => Some r
  | None =>
      match s with
      | c :: s' => if p c then capLazy p (fun g => k (c :: g)) s' else None
      | [] => None
      end
  end.

(** Alternation: the left branch first. *)
Definition alt (m1 m2 : str -> option A) (s : str) : option A :=
  match m1 s with Some r => Some r | None => m2 s end.

(** [String.prototype.match] without the [g] flag and without [^]: the
    pattern is tried at every position from the left, the end included. *)
Fixpoint search (m : str -> option A) (s : str) : option A :=
  match m s with
  | Some r => Some r
  | None => match s with [] => None | _ :: s' => search m s' end
  end.
End MoreCombinators.

(** The tail shared by the three script patterns:
    a lazy capture of anything, then three hyphens or the end of input. *)
Definition scriptBody : str -> option str :=
  capLazy anyChar (fun g => alt (lit N.eqb (u "---") (fun _ => Some g)) (eos g)).

(** The memo emoji U+1F4DD as its two surrogate code units. *)
Definition memo : str := [55357; 56541]%N.

(** The memo emoji, optional whitespace, then the starred title. *)
Definition scriptPattern1 : str -> option str :=
  search (lit ci memo
    (star isWhiteSpace (lit ci (u "**Vision Point Script**") scriptBody))).

(** The starred title alone. *)
Definition scriptPattern2 : str -> option str :=
  search (lit ci (u "**Vision Point Script**") scriptBody).

(** The bare title. *)
Definition scriptPattern3 : str -> option str :=
  search (lit ci (u "Vision Point Script") scriptBody).

(** A pattern replaced by the empty string under the [g] flag: the scan
    resumes after each match; [prev] is the code unit before the position. *)
Fixpoint removeAllFrom (pat : option N -> str -> option nat)
    (prev : option N) (skip : nat) (s : str) : str :=
  match s with
  | [] => []
  | c :: s' =>
      match skip with
      | S k => removeAllFrom pat (Some c) k s'
      | O =>
          match pat prev s with
          | Some (S n) => removeAllFrom pat (Some c) n s'
          | _ => c :: removeAllFrom pat (Some c) 0 s'
          end
      end
  end.

(** [^] under the [m] flag: the start of input or after a line terminator. *)
Definition atLineStart (prev : option N) : bool :=
  match prev with None => true | Some c => isLineTerminator c end.

(** A rule of three hyphens at the start of a line, with the whitespace
    around it. *)
Definition hyphenRule (prev : option N) (s : str) : option nat :=
  if atLineStart prev
  then star isWhiteSpace
         (lit N.eqb (u "---")
           (star isWhiteSpace (fun rest => Some (consumed s rest)))) s
  else None.

(** The script of a response; [visuals] is always the empty string and is
    left out.  No operation can throw on a string. *)
Definition extractScriptAndVisuals (response : str) : str :=
  let capture :=
    match scriptPattern1 response with
    | Some g => g
    | None =>
    match scriptPattern2 response with
    | Some g => g
    | None =>
    match scriptPattern3 response with
    | Some g => g
    | None => response
    end end end in
  let script := trim capture in
  if truthy script
  then trim (removeAllFrom hyphenRule None 0 script)
  else script.

(** ** The world of the bot *)

(** A voice identifier as [getVoiceId] can return it: a string, or what the
    lookup in the object literal inherits from [Object.prototype] under the
    names [constructor] and [__proto__] (the only inherited names that a
    lower-cased string can spell). *)
Inductive VoiceId : Type :=
| VoiceIdString (id : str)
| InheritedProperty (name : str).

(** A file under [./output/voiceovers]: its name is the ISO timestamp of
    its creation followed by a suffix and [.mp3]. *)
Inductive Suffix : Type :=
| NoSuffix
| ChunkSuffix (chunkNumber : nat)
| CombinedSuffix.

Record Path : Type := { created : Z; suffix : Suffix }.

Global Instance Suffix_eq_dec : EqDecision Suffix.
Proof. solve_decision. Defined.

Global Instance Path_eq_dec : EqDecision Path.
Proof. solve_decision. Defined.

Inductive AudioSource : Type :=
| AudioUrl (audioPath : Path)
| AudioBuffer (bytes : list N).

(** What [sock.sendMessage] is asked to send. *)
Inductive Delivery : Type :=
| TextDelivery (channel : str) (body : str)
| AudioDelivery (channel : str) (audio : AudioSource) (ptt : bool)
| ReactionDelivery (channel : str) (targetMessageId : str) (emoji : str).

(** A request to an external service. *)
Inductive Request : Type :=
| ChatCompletion (prompt : str) (max_tokens : Z)
| TextToSpeech (voiceId : VoiceId) (text : str)
| ListVoices.

Record HeadlineSession : Type :=
  { headlines : list str; timestamp : Z }.

Record GroupJIDs : Type :=
  { content : str; demoScript : str; demoVisual : str }.

(** The mutable state the handlers work on.  [currentHeadlines] is the
    object keyed by [remoteJid]; the keys are chat identifiers of the form
    [user@server], which never spell a property of [Object.prototype], so
    the object is a finite map.  [sent] and [requests] record, oldest first,
    the messages handed to the socket and the calls made to the services. *)
Record World : Type :=
  { clock : Z;
    currentHeadlines : gmap str HeadlineSession;
    sent : list Delivery;
    requests : list Request;
    files : Path -> option (list N) }.

(** What the program takes from outside: the answers of the services (each
    may depend on how many requests were made before, so that the same
    request can succeed once and fail later; [None] is a request that
    throws), the run-time's [toLowerCase], the prompt texts, which the
    handlers only pass on, and the configuration. *)
Record Env : Type :=
  { chat : nat -> str -> Z -> option str;
    speech : nat -> VoiceId -> str -> option (list N);
    voices : nat -> option (list (str * str));
    toLowerCase : str -> str;
    MASTER_PROMPT : str;
    visualsPrompt : str -> str;
    headlinesPrompt : str;
    ELEVENLABS_VOICE_ID : str;
    groupJIDs : GroupJIDs }.

(** The handlers are state transformers over the world.  Sending a message
    and the file operations on an existing file are taken to succeed. *)
Definition M (A : Type) : Type := World -> A * World.

Definition ret {A} (a : A) : M A := fun w => (a, w).

Definition bind {A B} (m : M A) (k : A -> M B) : M B :=
  fun w => let '(a, w') := m w in k a w'.

Notation "'let*' x ':=' m 'in' k" := (bind m (fun x => k))
  (at level 10, x name, m at level 200, k at level 200).
Notation "m ';;' k" := (bind m (fun _ => k))
  (at level 100, k at level 200, right associativity).

(** [Date.now()]. *)
Definition now : M Z := fun w => (clock w, w).

(** [await new Promise(resolve => setTimeout(resolve, ms))]. *)
Definition sleep (ms : Z) : M unit := fun w =>
  (tt, {| clock := clock w + ms; currentHeadlines := currentHeadlines w;
          sent := sent w; requests := requests w; files := files w |}).

Definition sendMessage (d : Delivery) : M unit := fun w =>
  (tt, {| clock := clock w; currentHeadlines := currentHeadlines w;
          sent := sent w ++ [d]; requests := requests w; files := files w |}).

Definition request {A} (answer : nat -> A) (r : Request) : M A := fun w =>
  (answer (length (requests w)),
   {| clock := clock w; currentHeadlines := currentHeadlines w;
      sent := sent w; requests := requests w ++ [r]; files := files w |}).

Definition setFiles (f : (Path -> option (list N)) -> Path -> option (list N))
    : M unit := fun w =>
  (tt, {| clock := clock w; currentHeadlines := currentHeadlines w;
          sent := sent w; requests := requests w; files := f (files w) |}).

Definition writeFile (p : Path) (data : list N) : M unit :=
  setFiles (fun fs q => if decide (q = p) then Some data else fs q).

Definition unlink (p : Path) : M unit :=
  setFiles (fun fs q => if decide (q = p) then None else fs q).

(** [fs.readFile]: [None] when the file does not exist (the call throws). *)
Definition readFile (p : Path) : M (option (list N)) := fun w => (files w p, w).

Definition getHeadlines (remoteJid : str) : M (option HeadlineSession) :=
  fun w => (currentHeadlines w !! remoteJid, w).

Definition setHeadlines (remoteJid : str) (h : HeadlineSession) : M unit :=
  fun w =>
  (tt, {| clock := clock w;
          currentHeadlines := <[remoteJid := h]> (currentHeadlines w);
          sent := sent w; requests := requests w; files := files w |}).

(** A response of a service is usable when it is a non-empty string. *)
Definition usable (r : option str) : option str :=
  match r with
  | Some (c :: s) => Some (c :: s)
  | _ => None
  end.

(** The cross mark U+274C, the check mark U+2705 and the em dash. *)
Definition crossMark : N := 10060.
Definition checkMark : N := 9989.
Definition emDash : N := 8212.

Definition failed (what : string) : str :=
  crossMark :: u " Failed to " ++ u what ++ u ". Please try again.".

Definition showNat (n : nat) : str := u (pretty n).
Definition showZ (n : Z) : str := u (pretty n).

(** ** The handlers *)

(** [haystack.startsWith(needle)] and [haystack.includes(needle)]. *)
Fixpoint startsWith (haystack needle : str) : bool :=
  match needle, haystack with
  | [], _ => true
  | _ :: _, [] => false
  | n :: needle', h :: haystack' => (h =? n)%N && startsWith haystack' needle'
  end.

Fixpoint includes (haystack needle : str) : bool :=
  startsWith haystack needle
  || match haystack with
     | [] => false
     | _ :: haystack' => includes haystack' needle
     end.

(** [text.substring(0, n)]. *)
Definition substring0 (n : nat) (text : str) : str := firstn n text.

Definition lineFeeds : str := [newline; newline].

(** The own properties of [voiceMappings]. *)
Definition voiceMappings : list (str * str) :=
  [ (u "female anchor", u "1t3sfuW00ixjYR0WrUwv");
    (u "faisal", u "yMh3XlxlKciyQtb9aaKf");
    (u "emaan", u "NSKerni0PGvnWc5PhIaJ");
    (u "musawar", u "XCkZqFlln3hpafGy0oM8");
    (u "aftab", u "N3Vp5nz3tT8lqNywhElB");
    (u "default", u "1t3sfuW00ixjYR0WrUwv") ].

Fixpoint assoc (key : str) (table : list (str * str)) : option str :=
  match table with
  | [] => None
  | (k, v) :: table' => if decide (k = key) then Some v else assoc key table'
  end.

(** [voiceMappings[name]]: an own property, else one inherited from
    [Object.prototype], else [undefined]. *)
Definition lookupVoice (name : str) : option VoiceId :=
  match assoc name voiceMappings with
  | Some id => Some (VoiceIdString id)
  | None =>
      if decide (name = u "constructor") then Some (InheritedProperty name)
      else if decide (name = u "__proto__") then Some (InheritedProperty name)
      else None
  end.

(** Truthiness of a voice identifier. *)
Definition voiceTruthy (v : VoiceId) : bool :=
  match v with
  | VoiceIdString id => truthy id
  | InheritedProperty _ => true
  end.

(** The line pattern [/^\d+\./] of the agenda. *)
Definition isNumbered (line : str) : bool :=
  match plus isDigit (chr (N.eqb 46) (fun _ => Some tt)) line with
  | Some _ => true
  | None => false
  end.

(** [split('\n')]. *)
Definition lineFeed : Separator := fun _ s =>
  match s with
  | c :: _ => if (c =? newline)%N then Some (1, []) else None
  | [] => None
  end.

(** [selectedHeadline.replace(/^\d+\.\s*/, '')]. *)
Definition stripNumber (selectedHeadline : str) : str :=
  match plus isDigit
          (chr (N.eqb 46) (star isWhiteSpace (fun rest => Some rest)))
          selectedHeadline with
  | Some rest => rest
  | None => selectedHeadline
  end.

Definition noRecentHeadlines : str :=
  crossMark :: u " No recent headlines found. Please type "
    ++ [34%N] ++ u "agenda" ++ [34%N] ++ u " first to get latest headlines.".

Definition invalidNumber (count : nat) : str :=
  crossMark :: u " Invalid number. Please choose between 1-"
    ++ showNat count ++ u ".".

Definition voiceNotFound (voiceName : str) : str :=
  crossMark :: u " Voice '" ++ voiceName
    ++ u "' not found. Using default voice instead.".

Definition errorGenerating (what : string) : str :=
  crossMark :: u " Error generating " ++ u what ++ u ". Please try again.".

(** The text sent to the speech service: at most 5000 characters. *)
Definition clip (text : str) : str :=
  if (5000 <? strlen text)%Z then substring0 5000 text else text.

(** [chunks.length === 1 && chunks[0].length <= 5000]. *)
Definition isSingle (chunks : list str) : bool :=
  match chunks with
  | [chunk] => (strlen chunk <=? 5000)%Z
  | _ => false
  end.

Section Handlers.
Variable E : Env.

(** The completion text, or [None] when the request throws. *)
Definition callPerplexityAPI (editorial : str) : M (option str) :=
  let prompt :=
    MASTER_PROMPT E ++ lineFeeds ++ u "Base News Item: " ++ editorial in
  request (fun n => chat E n prompt 4000) (ChatCompletion prompt 4000).

Definition callVisualsAPI (content : str) : M (option str) :=
  let prompt := visualsPrompt E content in
  request (fun n => chat E n prompt 1500) (ChatCompletion prompt 1500).

Definition callHeadlinesAPI : M (option str) :=
  let prompt := headlinesPrompt E in
  request (fun n => chat E n prompt 1000) (ChatCompletion prompt 1000).

Definition processScriptOnly (content messageId remoteJid : str) : M unit :=
  let scriptPrompt :=
    MASTER_PROMPT E ++ lineFeeds ++ u "Base News Item: " ++ content in
  let* response := callPerplexityAPI scriptPrompt in
  match usable response with
  | Some response =>
      sendMessage (TextDelivery remoteJid
        (memo ++ u " **Generated Script:**" ++ lineFeeds ++ response))
  | None => sendMessage (TextDelivery remoteJid (failed "generate script"))
  end.

Definition processVisualsOnly (content messageId remoteJid : str) : M unit :=
  let* response := callVisualsAPI content in
  match usable response with
  | Some response => sendMessage (TextDelivery remoteJid response)
  | None => sendMessage (TextDelivery remoteJid (failed "generate visuals"))
  end.

(** One synthesis call.  [chunkNumber] is [None] for the default [null]. *)
Definition generateSingleAudioChunk (text : str) (voiceId : VoiceId)
    (chunkNumber : option nat) : M (option Path) :=
  let textToConvert := clip text in
  let* response :=
    request (fun n => speech E n voiceId textToConvert)
            (TextToSpeech voiceId textToConvert) in
  match response with
  | None => ret None
  | Some data =>
      let* timestamp := now in
      let chunkSuffix :=
        match chunkNumber with
        | Some (S n) => ChunkSuffix (S n)
        | _ => NoSuffix
        end in
      let audioPath := {| created := timestamp; suffix := chunkSuffix |} in
      writeFile audioPath data ;;
      ret (Some audioPath)
  end.

(** The buffers of the files, [None] as soon as one read throws. *)
Fixpoint readFiles (paths : list Path) : M (option (list (list N))) :=
  match paths with
  | [] => ret (Some [])
  | chunkPath :: rest =>
      let* buffer := readFile chunkPath in
      match buffer with
      | None => ret None
      | Some b =>
          let* buffers := readFiles rest in
          ret (option_map (cons b) buffers)
      end
  end.

Definition combineAudioChunks (audioChunkPaths : list Path)
    : M (option Path) :=
  let* timestamp := now in
  let combinedPath := {| created := timestamp; suffix := CombinedSuffix |} in
  let* audioBuffers := readFiles audioChunkPaths in
  match audioBuffers with
  | Some buffers =>
      writeFile combinedPath (List.concat buffers) ;;
      ret (Some combinedPath)
  | None => ret (head audioChunkPaths)
  end.

(** The loop over the chunks, [i] the index of the chunk at hand. *)
Fixpoint synthesizeChunks (voiceId : VoiceId) (chunks : list str) (i : nat)
    (audioChunkPaths : list Path) : M (list Path) :=
  match chunks with
  | [] => ret audioChunkPaths
  | chunk :: rest =>
      let* chunkPath := generateSingleAudioChunk chunk voiceId (Some (i + 1)) in
      let audioChunkPaths :=
        match chunkPath with
        | Some p => audioChunkPaths ++ [p]
        | None => audioChunkPaths
        end in
      match rest with [] => ret tt | _ :: _ => sleep 1000 end ;;
      synthesizeChunks voiceId rest (S i) audioChunkPaths
  end.

Fixpoint unlinkAll (paths : list Path) : M unit :=
  match paths with
  | [] => ret tt
  | chunkPath :: rest => unlink chunkPath ;; unlinkAll rest
  end.

Definition generateAudioWithVoice (script : str) (voiceId : VoiceId)
    : M (option Path) :=
  if negb (truthy script) then ret None
  else
    let chunks := splitScriptIntoChunks script in
    if isSingle chunks
    then generateSingleAudioChunk (List.hd [] chunks) voiceId None
    else
      let* audioChunkPaths := synthesizeChunks voiceId chunks 0 [] in
      if isEmpty audioChunkPaths then ret None
      else
        let* combinedAudioPath := combineAudioChunks audioChunkPaths in
        unlinkAll audioChunkPaths ;;
        ret combinedAudioPath.

(** The same statements as [generateAudioWithVoice], with the configured
    voice. *)
Definition generateAudio (script : str) : M (option Path) :=
  generateAudioWithVoice script (VoiceIdString (ELEVENLABS_VOICE_ID E)).

Definition processVoiceOnly (content messageId remoteJid : str) : M unit :=
  let* audioPath := generateAudio content in
  match audioPath with
  | Some p => sendMessage (AudioDelivery remoteJid (AudioUrl p) false)
  | None => sendMessage (TextDelivery remoteJid (failed "generate voice"))
  end.

Definition getVoiceId (voiceName : str) : M VoiceId :=
  let normalizedVoiceName := trim (toLowerCase E voiceName) in
  match lookupVoice normalizedVoiceName with
  | Some id => ret id
  | None =>
      let* response := request (voices E) ListVoices in
      match response with
      | None => ret (VoiceIdString (u "1t3sfuW00ixjYR0WrUwv"))
      | Some vs =>
          match List.find (fun v => includes (toLowerCase E (fst v))
                                             normalizedVoiceName) vs with
          | Some voice => ret (VoiceIdString (snd voice))
          | None => ret (VoiceIdString (u "1t3sfuW00ixjYR0WrUwv"))
          end
      end
  end.

Definition processVoiceWithPerson (content voiceName messageId remoteJid : str)
    : M unit :=
  let* voiceId := getVoiceId voiceName in
  if negb (voiceTruthy voiceId) then
    sendMessage (TextDelivery remoteJid (voiceNotFound voiceName)) ;;
    processVoiceOnly content messageId remoteJid
  else
    let* audioPath := generateAudioWithVoice content voiceId in
    match audioPath with
    | Some p =>
        let* audioBuffer := readFile p in
        match audioBuffer with
        | Some b => sendMessage (AudioDelivery remoteJid (AudioBuffer b) true)
        | None =>
            sendMessage (TextDelivery remoteJid (errorGenerating "voice"))
        end
    | None => sendMessage (TextDelivery remoteJid (failed "generate voice"))
    end.

Fixpoint sendChunks (channel : str) (chunks : list str) : M unit :=
  match chunks with
  | [] => ret tt
  | chunk :: rest =>
      sendMessage (TextDelivery channel chunk) ;;
      sleep 1000 ;;
      sendChunks channel rest
  end.

Definition heading (originalTopic : str) : str :=
  let shortTopic :=
    substring0 50 originalTopic
    ++ (if (50 <? strlen originalTopic)%Z then u "..." else []) in
  memo ++ u " Vision Point Script (9 min) " ++ [emDash] ++ u " " ++ shortTopic.

(** [visuals] and [audioPath] are [None] for [null]. *)
Definition sendToWhatsAppGroups (script : str) (visuals : option str)
    (audioPath : option Path) (originalTopic : str) : M unit :=
  (if truthy script then
     sendMessage (TextDelivery (demoScript (groupJIDs E)) (heading originalTopic)) ;;
     sendChunks (demoScript (groupJIDs E)) (chunkText script 3500) ;;
     match audioPath with
     | Some p =>
         let* audioBuffer := readFile p in
         match audioBuffer with
         | Some b =>
             sendMessage
               (AudioDelivery (demoScript (groupJIDs E)) (AudioBuffer b) false)
         | None => ret tt
         end
     | None => ret tt
     end
   else ret tt) ;;
  match visuals with
  | Some v =>
      if truthy v
      then sendMessage (TextDelivery (demoVisual (groupJIDs E)) v)
      else ret tt
  | None => ret tt
  end.

Definition processEditorial (editorial messageId : str) : M unit :=
  let* perplexityResponse := callPerplexityAPI editorial in
  match usable perplexityResponse with
  | None => ret tt
  | Some response =>
      let script := extractScriptAndVisuals response in
      if negb (truthy script) then ret tt
      else
        sendToWhatsAppGroups script None None editorial ;;
        sendMessage
          (ReactionDelivery (content (groupJIDs E)) messageId [checkMark])
  end.

Definition processAgenda (messageId remoteJid : str) : M unit :=
  let* response := callHeadlinesAPI in
  match usable response with
  | Some response =>
      let headlineLines := List.filter isNumbered (split lineFeed response) in
      let* t := now in
      setHeadlines remoteJid {| headlines := headlineLines; timestamp := t |} ;;
      sendMessage (TextDelivery remoteJid response)
  | None => sendMessage (TextDelivery remoteJid (failed "fetch headlines"))
  end.

Definition processHeadlineSelection (number : Z) (messageId remoteJid : str)
    : M unit :=
  let* userHeadlines := getHeadlines remoteJid in
  let* t := now in
  match userHeadlines with
  | None => sendMessage (TextDelivery remoteJid noRecentHeadlines)
  | Some session =>
      if (3600000 <? t - timestamp session)%Z
      then sendMessage (TextDelivery remoteJid noRecentHeadlines)
      else if ((number <? 1)
               || (Z.of_nat (length (headlines session)) <? number))%Z
      then sendMessage
             (TextDelivery remoteJid
                (invalidNumber (length (headlines session))))
      else
        match headlines session !! Z.to_nat (number - 1) with
        | None =>
            sendMessage (TextDelivery remoteJid (errorGenerating "script"))
        | Some selectedHeadline =>
            let headlineText := stripNumber selectedHeadline in
            let scriptPrompt :=
              MASTER_PROMPT E ++ lineFeeds
              ++ u "Base News Item (Headline " ++ showZ number ++ u "): "
              ++ headlineText in
            let* response := callPerplexityAPI scriptPrompt in
            match usable response with
            | Some response => sendMessage (TextDelivery remoteJid response)
            | None =>
                sendMessage (TextDelivery remoteJid (failed "generate script"))
            end
        end
  end.

Definition handleCommand (commandResult : Command) (messageId remoteJid : str)
    : M unit :=
  match commandResult with
  | Topic content => processEditorial content messageId
  | Script content => processScriptOnly content messageId remoteJid
  | Visuals content => processVisualsOnly content messageId remoteJid
  | Voice content => processVoiceOnly content messageId remoteJid
  | VoicePerson voiceName content =>
      processVoiceWithPerson content voiceName messageId remoteJid
  | Agenda => processAgenda messageId remoteJid
  | Number number => processHeadlineSelection number messageId remoteJid
  end.
End Handlers.

(** ** Vocabulary of the statements *)

Definition allWs (s : str) : Prop := Forall (fun c => isWhiteSpace c = true) s.

(** Where a greedy run over the class [p] has to stop. *)
Definition stops (p : N -> bool) (s : str) : Prop :=
  match s with [] => True | c :: _ => p c = false end.

Fixpoint leadingWs (s : str) : str :=
  match s with
  | c :: s' => if isWhiteSpace c then c :: leadingWs s' else []
  | [] => []
  end.

(** The text of a string: its characters that are not whitespace, in
    order. *)
Definition nonWs (s : str) : str :=
  List.filter (fun c => negb (isWhiteSpace c)) s.

(** The text held by the state of a chunking loop: that of the chunks
    pushed so far, then that of the buffer. *)
Definition textOf (st : list str * str) : str :=
  List.concat (List.map nonWs (fst st)) ++ nonWs (snd st).

(** A separator keeps the characters selected by [q]: what a match removes
    and what its captures put back agree on them. *)
Definition keeps (q : N -> bool) (sep : Separator) : Prop :=
  forall prev s n caps,
    sep prev s = Some (n, caps) ->
    n <= length s
    /\ List.filter q (List.concat caps) = List.filter q (firstn n s).

(** [n] copies of a string, one after the other. *)
Fixpoint repeatStr (n : nat) (s : str) : str :=
  match n with
  | O => []
  | S k => s ++ repeatStr k s
  end.

(** A sentence of ten characters that ends with the Urdu full stop. *)
Definition shortSentence : str := u "abcdefghi" ++ [1748%N].

(** 1800 characters in 180 sentences, without any line feed. *)
Definition longParagraph : str := repeatStr 180 shortSentence.

(** Two paragraphs of 1000 characters, each of 100 sentences, a blank line
    between them. *)
Definition twoParagraphs : str :=
  repeatStr 100 shortSentence ++ blankLine ++ repeatStr 100 shortSentence.

(** The most characters a chunk can have when no trimmed paragraph has more
    than [P]: a buffer below [minChunkSize] that takes the next paragraph
    after a blank line, or a buffer and a paragraph that pass the size test
    and are joined by a blank line. *)
Definition chunkBound (P : Z) : Z :=
  Z.max (maxChunkSize + 2) (minChunkSize + 1 + P).

(** Every chunk has at most [b] characters. *)
Definition within (b : Z) (chunks : list str) : Prop :=
  Forall (fun c => (strlen c <= b)%Z) chunks.

(** A handler leaves a part of the world as it found it. *)
Definition preserves {X A : Type} (part : World -> X) (m : M A) : Prop :=
  forall w, part (snd (m w)) = part w.

(** Time passes between two messages. *)
Definition elapse (ms : Z) (w : World) : World := snd (sleep ms w).

(** A world before any message. *)
Definition emptyWorld (t : Z) : World :=
  {| clock := t; currentHeadlines := ∅; sent := []; requests := [];
     files := fun _ => None |}.

(** Lower case of the ASCII letters, as [toLowerCase] has it on ASCII
    strings. *)
Definition asciiLower (s : str) : str :=
  List.map (fun c => if ((65 <=? c) && (c <=? 90))%N then (c + 32)%N else c) s.

(** An environment for the examples: the services answer as given, the
    prompts are short stand-ins, the three groups are resolved. *)
Definition exampleEnv (chatAnswer : nat -> str -> Z -> option str)
    (speechAnswer : nat -> VoiceId -> str -> option (list N))
    (voicesAnswer : nat -> option (list (str * str))) : Env :=
  {| chat := chatAnswer;
     speech := speechAnswer;
     voices := voicesAnswer;
     toLowerCase := asciiLower;
     MASTER_PROMPT := u "You are a professional scriptwriter.";
     visualsPrompt := fun content => u "Find visuals. " ++ content;
     headlinesPrompt := u "Provide exactly 10 current top headlines.";
     ELEVENLABS_VOICE_ID := u "1t3sfuW00ixjYR0WrUwv";
     groupJIDs := {| content := u "content@g.us";
                     demoScript := u "script@g.us";
                     demoVisual := u "visual@g.us" |} |}.

(** The prompt [callPerplexityAPI] posts for an editorial. *)
Definition editorialPrompt (E : Env) (editorial : str) : str :=
  MASTER_PROMPT E ++ lineFeeds ++ u "Base News Item: " ++ editorial.

(** The prompt posted for the selected headline: the script prompt of
    [processHeadlineSelection], wrapped once more by [callPerplexityAPI]. *)
Definition selectionPrompt (E : Env) (number : Z) (selectedHeadline : str)
    : str :=
  editorialPrompt E
    (MASTER_PROMPT E ++ lineFeeds
     ++ u "Base News Item (Headline " ++ showZ number ++ u "): "
     ++ stripNumber selectedHeadline).

(** The reply to a selection once the completion has answered. *)
Definition scriptReply (response : option str) : str :=
  match usable response with
  | Some r => r
  | None => failed "generate script"
  end.

(** A script of 4000 characters without any sentence boundary, and one of
    4000 characters in two sentences. *)
Definition unbrokenScript : str := repeatStr 4000 (u "a").
Definition firstSentence : str := repeatStr 1999 (u "a") ++ u "!".
Definition secondSentence : str := repeatStr 1999 (u "b").
Definition twoSentenceScript : str :=
  firstSentence ++ [space] ++ secondSentence.

(** The reply to a selection without a fresh session, and nothing else. *)
Definition refused (remoteJid : str) (w : World) : unit * World :=
  sendMessage (TextDelivery remoteJid noRecentHeadlines) w.

(** A run of the agenda for the examples: the first request is answered
    with three numbered headlines under a title, every later one with a
    script. *)
Definition agendaResponse : str :=
  u "Top Headlines" ++ [newline] ++ u "1. Alpha" ++ [newline]
  ++ u "2. Beta" ++ [newline] ++ u "3. Gamma".

Definition agendaEnv : Env :=
  exampleEnv
    (fun n _ _ => match n with
                  | O => Some agendaResponse
                  | S _ => Some (u "A script about Gamma")
                  end)
    (fun _ _ _ => None) (fun _ => None).

Definition afterAgenda : World :=
  snd (processAgenda agendaEnv (u "MSG1") (u "user@s.whatsapp.net")
         (emptyWorld 1000)).

(** What the speech service answers for the chunks of a job, in order, when
    [n] requests were made before the job: one request per chunk. *)
Fixpoint synthesisOutcomes (E : Env) (voiceId : VoiceId) (n : nat)
    (chunks : list str) : list (option (list N)) :=
  match chunks with
  | [] => []
  | chunk :: rest =>
      speech E n voiceId (clip chunk) :: synthesisOutcomes E voiceId (S n) rest
  end.

(** The answers that are not failures, in order. *)
Fixpoint successes {A} (outcomes : list (option A)) : list A :=
  match outcomes with
  | [] => []
  | Some a :: rest => a :: successes rest
  | None :: rest => successes rest
  end.

(** The files at [paths] hold [buffers], one each. *)
Definition hold (fs : Path -> option (list N)) (paths : list Path)
    (buffers : list (list N)) : Prop :=
  Forall2 (fun p b => fs p = Some b) paths buffers.

(** A file of a chunk whose number is at most [i]. *)
Definition chunkFileUpTo (i : nat) (p : Path) : Prop :=
  exists n, suffix p = ChunkSuffix n /\ n <= i.

(** A script of two paragraphs of 1300 characters: two chunks. *)
Definition twoChunkScript : str :=
  repeatStr 130 shortSentence ++ blankLine ++ repeatStr 130 shortSentence.

(** The speech service fails on its first request and answers the later
    ones with three bytes. *)
Definition flakyEnv : Env :=
  exampleEnv (fun _ _ _ => None)
    (fun n _ _ => match n with O => None | S _ => Some [1; 2; 3]%N end)
    (fun _ => Some []).

(** The identifier [getVoiceId] falls back to. *)
Definition defaultVoice : VoiceId := VoiceIdString (u "1t3sfuW00ixjYR0WrUwv").

(** The services for the example of an unknown voice: one voice is listed,
    every synthesis answers with three bytes. *)
Definition oneVoiceEnv : Env :=
  exampleEnv (fun _ _ _ => None) (fun _ _ _ => Some [1; 2; 3]%N)
    (fun _ => Some [(u "Rachel", u "21m00Tcm4TlvDq8ikWAM")]).

(** ** Further vocabulary *)

(** The content a command carries, if it carries one. *)
Definition commandContent (c : Command) : option str :=
  match c with
  | Topic content | Script content | Visuals content | Voice content
  | VoicePerson _ content => Some content
  | Agenda | Number _ => None
  end.

(** A string that is not empty and that [trim] leaves as it is. *)
Definition trimmed (s : str) : Prop := s <> [] /\ trim s = s.

(** The state of the paragraph pass is sound: every chunk pushed is
    trimmed, and the buffer is empty or has text. *)
Definition passInvariant (st : list str * str) : Prop :=
  Forall trimmed (fst st) /\ (snd st = [] \/ nonWs (snd st) <> []).

(** The state of the loop of [chunkText] is within [b]: the chunks are, and
    the buffer is empty or a text of at most [b] characters and the space
    added after it. *)
Definition loopWithin (b : Z) (st : list str * str) : Prop :=
  within b (fst st)
  /\ (snd st = [] \/ exists x, snd st = x ++ [space] /\ (strlen x <= b)%Z).

(** No sentence terminal of the distribution chunker before this
    position. *)
Definition noTextEndBefore (prev : option N) : Prop :=
  match prev with Some p => isTextEnd p = false | None => True end.
(** The services for the example of two agendas: the first two completions
    are lists of headlines, the later ones scripts. *)
Definition secondResponse : str :=
  u "1. Delta" ++ [newline] ++ u "2. Epsilon".

Definition twoAgendasEnv : Env :=
  exampleEnv
    (fun n _ _ => match n with
                  | O => Some agendaResponse
                  | S O => Some secondResponse
                  | S (S _) => Some (u "A script about Epsilon")
                  end)
    (fun _ _ _ => None) (fun _ => None).
(** Every voice that the service lists has a non-empty identifier. *)
Definition listedIdsNonEmpty (E : Env) : Prop :=
  forall n vs, voices E n = Some vs -> Forall (fun v => snd v <> []) vs.

(** The requests and the clock of a world. *)
Definition requestsAndClock (w : World) : list Request * Z :=
  (requests w, clock w).
(** The chat a delivery goes to. *)
Definition channelOf (d : Delivery) : str :=
  match d with
  | TextDelivery channel _ | AudioDelivery channel _ _
  | ReactionDelivery channel _ _ => channel
  end.

(** A handler sends exactly one message, and sends it to [remoteJid]. *)
Definition repliesOnce {A} (remoteJid : str) (m : M A) : Prop :=
  forall w, exists d,
    sent (snd (m w)) = sent w ++ [d] /\ channelOf d = remoteJid.

(** ** handleIncomingMessages *)

(** What the handler reads of an incoming message: the key, the two places
    a text can be in, and whether an audio message is attached. *)
Record Message : Type :=
  { keyFromMe : bool;
    keyRemoteJid : str;
    keyId : str;
    conversation : option str;
    extendedText : option str;
    audioMessage : bool }.

(** [message.message?.conversation || message.message?.extendedTextMessage?.text]. *)
Definition messageTextOf (message : Message) : option str :=
  match conversation message with
  | Some (c :: s) => Some (c :: s)
  | _ => extendedText message
  end.

Section Incoming.
Variable E : Env.

(** The handler of voice messages downloads the media and writes a
    temporary file before it runs the editorial path; it is taken as
    given. *)
Variable handleVoiceMessage : Message -> str -> str -> M unit.

(** [m] is [m.messages[0]], [None] when there is none. *)
Definition handleIncomingMessages (m : option Message) : M unit :=
  match m with
  | None => ret tt
  | Some message =>
      if keyFromMe message then ret tt
      else if audioMessage message
              && bool_decide (keyRemoteJid message = content (groupJIDs E))
      then handleVoiceMessage message (keyId message) (keyRemoteJid message)
      else
        match messageTextOf message with
        | Some messageText =>
            if truthy messageText && truthy (trim messageText) then
              match parseCommand messageText with
              | Some commandResult =>
                  handleCommand E commandResult (keyId message)
                    (keyRemoteJid message)
              | None =>
                  if bool_decide
                       (keyRemoteJid message = content (groupJIDs E))
                  then processEditorial E messageText (keyId message)
                  else ret tt
              end
            else ret tt
        | None => ret tt
        end
  end.
End Incoming.

(** A text message of another sender, without audio. *)
Definition textMessage (remoteJid id text : str) : Message :=
  {| keyFromMe := false; keyRemoteJid := remoteJid; keyId := id;
     conversation := Some text; extendedText := None;
     audioMessage := false |}.
(** ** findGroupJIDs *)

(** A group as the socket lists it; a group can lack a subject. *)
Record Group : Type := { groupId : str; subject : option str }.

(** The object [groupJIDs] while the groups are looked up: each entry is
    [null] until a group of that name has been seen. *)
Record GroupTable : Type :=
  { contentJid : option str;
    demoScriptJid : option str;
    demoVisualJid : option str }.

(** The table the program starts with. *)
Definition noGroups : GroupTable :=
  {| contentJid := None; demoScriptJid := None; demoVisualJid := None |}.

(** [!jid]: [null] and the empty string are missing. *)
Definition missing (jid : option str) : bool :=
  match jid with
  | Some (_ :: _) => false
  | _ => true
  end.

(** How the lookup ends: the bot is ready, or the process exits on the
    names it misses. *)
Inductive Lookup : Type :=
  | Ready (table : GroupTable)
  | Exit (missingGroups : list str).

Section Groups.
Variable E : Env.

(** The body of the loop over the groups. *)
Definition assignGroup (table : GroupTable) (group : Group) : GroupTable :=
  match subject group with
  | None => table
  | Some s =>
      let groupName := toLowerCase E s in
      if bool_decide (groupName = u "content") then
        {| contentJid := Some (groupId group);
           demoScriptJid := demoScriptJid table;
           demoVisualJid := demoVisualJid table |}
      else if bool_decide (groupName = u "demo script") then
        {| contentJid := contentJid table;
           demoScriptJid := Some (groupId group);
           demoVisualJid := demoVisualJid table |}
      else if bool_decide (groupName = u "demo visual") then
        {| contentJid := contentJid table;
           demoScriptJid := demoScriptJid table;
           demoVisualJid := Some (groupId group) |}
      else table
  end.

Definition missingGroups (table : GroupTable) : list str :=
  (if missing (contentJid table) then [u "Content"] else [])
  ++ (if missing (demoScriptJid table) then [u "Demo script"] else [])
  ++ (if missing (demoVisualJid table) then [u "Demo visual"] else []).

(** [groupList] is what the socket lists, [table] the object as the last
    connection left it. *)
Definition findGroupJIDs (groupList : list Group) (table : GroupTable)
  : Lookup :=
  let table' := fold_left assignGroup groupList table in
  match missingGroups table' with
  | [] => Ready table'
  | names => Exit names
  end.

(** The group's subject is [name] up to case. *)
Definition named (name : str) (group : Group) : bool :=
  match subject group with
  | Some s => bool_decide (toLowerCase E s = name)
  | None => false
  end.

(** The last group of the list with that name, or what the table had. *)
Definition lastNamed (name : str) (groupList : list Group)
    (before : option str) : option str :=
  match List.find (named name) (rev groupList) with
  | Some group => Some (groupId group)
  | None => before
  end.
End Groups.

Definition exampleGroups : list Group :=
  [ {| groupId := u "1@g.us"; subject := Some (u "Content") |};
    {| groupId := u "2@g.us"; subject := None |};
    {| groupId := u "3@g.us"; subject := Some (u "Demo Script") |};
    {| groupId := u "4@g.us"; subject := Some (u "demo visual") |};
    {| groupId := u "5@g.us"; subject := Some (u "CONTENT") |} ].

(* ================================================================== *)
(** * Properties *)

Example parse_voice_person :
  parseCommand (u "voice musawar: hello")
  = Some (VoicePerson (u "musawar") (u "hello")).
Proof. vm_compute. reflexivity. Qed.

Example parse_voice :
  parseCommand (u "  Voice : salam  ") = Some (Voice (u "salam")).
Proof. vm_compute. reflexivity. Qed.

Example parse_voice_blank_name :
  parseCommand (u "voice  : hello") = Some (VoicePerson [] (u "hello")).
Proof. vm_compute. reflexivity. Qed.

Example parse_numbers :
  List.map parseCommand [u "0"; u "1"; u "10"; u "11"; u "007"]
  = [None; Some (Number 1); Some (Number 10); None; Some (Number 7)].
Proof. vm_compute. reflexivity. Qed.

Example split_paragraphs :
  split paragraphBreak (u "ab" ++ [10; 32; 10; 10]%N ++ u " cd" ++ [10%N] ++ u "e")
  = [u "ab"; u " cd" ++ [10%N] ++ u "e"].
Proof. vm_compute. reflexivity. Qed.

Example split_sentences :
  split sentenceEnd (u "ab!cd" ++ [1748%N])
  = [u "ab"; u "!"; u "cd"; [1748%N]; []].
Proof. vm_compute. reflexivity. Qed.

Example chunk_short :
  splitScriptIntoChunks (u "short text") = [u "short text"].
Proof. vm_compute. reflexivity. Qed.

Example chunk_empty : splitScriptIntoChunks [] = [].
Proof. reflexivity. Qed.

Example chunkText_two_sentences :
  chunkText (u "ab! cd?  ef") 4 = [u "ab!"; u "cd?"; u "ef"].
Proof. vm_compute. reflexivity. Qed.

Example extract_marked :
  extractScriptAndVisuals
    (u "intro **vision point script** body text --- rest") = u "body text".
Proof. vm_compute. reflexivity. Qed.

Example extract_plain :
  extractScriptAndVisuals (u "--- " ++ [10%N] ++ u "body" ++ [10%N] ++ u " --- x ")
  = u "body" ++ [10%N] ++ u "x".
Proof. vm_compute. reflexivity. Qed.

(** ** Trimming and whitespace *)

Lemma leadingWs_trimStart (s : str) : s = leadingWs s ++ trimStart s.
Proof.
  induction s as [|c s IH]; simpl; [reflexivity|].
  destruct (isWhiteSpace c); simpl; congruence.
Qed.

Lemma leadingWs_allWs (s : str) : allWs (leadingWs s).
Proof.
  induction s as [|c s IH]; simpl; [constructor|].
  destruct (isWhiteSpace c) eqn:Hc; constructor; assumption.
Qed.

Lemma trimStart_stops (s : str) : stops isWhiteSpace (trimStart s).
Proof.
  induction s as [|c s IH]; simpl; [exact I|].
  destruct (isWhiteSpace c) eqn:Hc; simpl; assumption.
Qed.

Lemma trimStart_of_stops (s : str) : stops isWhiteSpace s -> trimStart s = s.
Proof. destruct s as [|c s]; simpl; [reflexivity|]. intros ->. reflexivity. Qed.

Lemma trimStart_idem (s : str) : trimStart (trimStart s) = trimStart s.
Proof. apply trimStart_of_stops, trimStart_stops. Qed.

Lemma trimStart_allWs_app (w s : str) :
  allWs w -> trimStart (w ++ s) = trimStart s.
Proof.
  induction 1 as [|c w Hc _ IH]; simpl; [reflexivity|]. rewrite Hc. exact IH.
Qed.

Lemma trimStart_allWs (w : str) : allWs w -> trimStart w = [].
Proof.
  intros H. rewrite <- (app_nil_r w). rewrite trimStart_allWs_app; auto.
Qed.

Lemma trimStart_nil_allWs (s : str) : trimStart s = [] -> allWs s.
Proof.
  intros H. rewrite (leadingWs_trimStart s), H, app_nil_r.
  apply leadingWs_allWs.
Qed.

Lemma trim_trimStart (s : str) : trim (trimStart s) = trim s.
Proof. unfold trim. rewrite trimStart_idem. reflexivity. Qed.

Lemma trim_allWs (w : str) : allWs w -> trim w = [].
Proof. intros H. unfold trim. rewrite trimStart_allWs; auto. Qed.

Lemma trimStart_length (s : str) : length (trimStart s) <= length s.
Proof.
  induction s as [|c s IH]; simpl; [lia|].
  destruct (isWhiteSpace c); simpl; lia.
Qed.

Lemma trim_length (s : str) : length (trim s) <= length s.
Proof.
  unfold trim, trimEnd. rewrite length_rev.
  etransitivity; [apply trimStart_length|]. rewrite length_rev.
  apply trimStart_length.
Qed.

Lemma strlen_trim (s : str) : (strlen (trim s) <= strlen s)%Z.
Proof. unfold strlen. pose proof (trim_length s). lia. Qed.

(** ** The combinators on inputs of a known shape *)

Section CombinatorFacts.
Context {A : Type}.
Implicit Types (k : str -> option A) (p : N -> bool).

Lemma star_at_stop p k (v : str) : stops p v -> star p k v = k v.
Proof. destruct v as [|c v]; simpl; [reflexivity|]. intros ->. reflexivity. Qed.

(** The greedy run succeeds at its longest extent. *)
Lemma star_greedy p k (w v : str) (r : A) :
  Forall (fun c => p c = true) w -> stops p v -> k v = Some r ->
  star p k (w ++ v) = Some r.
Proof.
  intros Hw Hv Hk. induction Hw as [|c w Hc _ IH]; simpl.
  - rewrite star_at_stop; assumption.
  - rewrite Hc, IH. reflexivity.
Qed.

(** The greedy run gives back one character when the longest extent
    fails. *)
Lemma star_back_one p k (w : str) (c : N) (v : str) (r : A) :
  Forall (fun c => p c = true) w -> p c = true -> stops p v ->
  k v = None -> k (c :: v) = Some r ->
  star p k (w ++ c :: v) = Some r.
Proof.
  intros Hw Hc Hv Hn Hk. induction Hw as [|d w Hd _ IH]; simpl.
  - rewrite Hc, star_at_stop, Hn; assumption.
  - rewrite Hd, IH. reflexivity.
Qed.

Lemma capStar_greedy p (g v : str) (r : A) :
  forall (k : str -> str -> option A),
  Forall (fun c => p c = true) g -> stops p v -> k g v = Some r ->
  capStar p k (g ++ v) = Some r.
Proof.
  induction g as [|c g IH]; intros k Hg Hv Hk; simpl.
  - destruct v as [|d v]; simpl in *; [assumption|]. rewrite Hv. assumption.
  - inversion Hg as [|? ? Hc Hg']; subst. rewrite Hc.
    rewrite (IH (fun g0 => k (c :: g0))); auto.
Qed.

Lemma capPlus_greedy p (c : N) (g v : str) (r : A)
    (k : str -> str -> option A) :
  Forall (fun c => p c = true) (c :: g) -> stops p v ->
  k (c :: g) v = Some r ->
  capPlus p k ((c :: g) ++ v) = Some r.
Proof.
  intros Hg Hv Hk. inversion Hg as [|? ? Hc Hg']; subst. simpl. rewrite Hc.
  apply (capStar_greedy p g v r (fun g0 => k (c :: g0))); auto.
Qed.

Lemma lit_match (eqc : N -> N -> bool) (w kw s : str) k :
  Forall2 (fun a c => eqc a c = true) w kw ->
  lit eqc w k (kw ++ s) = k s.
Proof.
  induction 1 as [|a c w kw Hpc _ IH]; simpl; [reflexivity|].
  rewrite Hpc. exact IH.
Qed.
End CombinatorFacts.

Lemma allWs_snoc (s : str) :
  s <> [] -> allWs s -> exists w c, s = w ++ [c] /\ allWs w /\ isWhiteSpace c = true.
Proof.
  intros Hne Hs. destruct (exists_last Hne) as [w [c ->]].
  apply Forall_app in Hs as [Hw Hc]. inversion Hc; subst. eauto.
Qed.

(** The tail [\s*([\s\S]+)$] of the command patterns on a non-empty rest:
    the capture trims to what the rest trims to. *)
Lemma command_tail {A} (f : str -> A) (rest : str) :
  rest <> [] ->
  exists g, star isWhiteSpace (capPlus anyChar (fun g => eos (f g))) rest
            = Some (f g) /\ trim g = trim rest.
Proof.
  intros Hne.
  assert (Hall : forall x : str, Forall (fun c => anyChar c = true) x).
  { intros x. induction x; constructor; auto. }
  destruct (trimStart rest) as [|c core] eqn:Hcore.
  - (* only whitespace: the run gives its last character back *)
    apply trimStart_nil_allWs in Hcore.
    destruct (allWs_snoc rest Hne Hcore) as (w & c & -> & Hw & Hc).
    exists [c]. split.
    + apply star_back_one; auto; simpl; auto.
    + rewrite (trim_allWs (w ++ [c])); [|apply Forall_app; split; auto].
      apply trim_allWs. constructor; auto.
  - exists (c :: core). split.
    + rewrite (leadingWs_trimStart rest), Hcore.
      apply star_greedy.
      * apply leadingWs_allWs.
      * pose proof (trimStart_stops rest) as Hs. rewrite Hcore in Hs. exact Hs.
      * rewrite <- (app_nil_r (c :: core)) at 1.
        apply capPlus_greedy; simpl; auto.
    + rewrite <- Hcore. apply trim_trimStart.
Qed.

(** ** parseCommand: the person pattern comes before the plain voice pattern *)

Lemma ci_other (a b c : N) :
  ci a c = true -> asciiUpper a <> asciiUpper b -> ci b c = false.
Proof.
  unfold ci. intros Ha Hne. apply N.eqb_eq in Ha. apply N.eqb_neq. congruence.
Qed.

Lemma notColon_colon : notColon colon = false.
Proof. reflexivity. Qed.

Lemma isWhiteSpace_colon : isWhiteSpace colon = false.
Proof. reflexivity. Qed.

(** The person pattern on [voice], whitespace, a name without colon, a
    colon and a non-empty rest. *)
Lemma matchVoicePerson_shape (kw : str) (sp : N) (name rest : str) :
  Forall2 (fun a c => ci a c = true) (u "voice") kw ->
  isWhiteSpace sp = true -> name <> [] ->
  Forall (fun c => notColon c = true) name -> rest <> [] ->
  exists g1 g2,
    matchVoicePerson (kw ++ sp :: name ++ colon :: rest) = Some (g1, g2)
    /\ trim g1 = trim name /\ trim g2 = trim rest.
Proof.
  intros Hkw Hsp Hname Hnc Hrest.
  unfold matchVoicePerson. rewrite (lit_match ci _ kw _ _ Hkw).
  unfold plus. simpl chr. rewrite Hsp.
  (* what follows the colon, for any first capture *)
  assert (Htail : forall g1 : str,
    exists g2,
      star isWhiteSpace
        (chr (N.eqb colon)
           (star isWhiteSpace (capPlus anyChar (fun g2 => eos (g1, g2)))))
        (colon :: rest) = Some (g1, g2) /\ trim g2 = trim rest).
  { intros g1. destruct (command_tail (fun g2 => (g1, g2)) rest Hrest)
      as (g2 & Hg2 & Ht).
    exists g2. split; [|exact Ht].
    rewrite star_at_stop by exact isWhiteSpace_colon.
    unfold chr at 1. change (colon =? colon)%N with true. exact Hg2. }
  destruct (trimStart name) as [|c core] eqn:Hcore.
  - (* a name of whitespace only: the run after [voice] gives one back *)
    apply trimStart_nil_allWs in Hcore.
    destruct (allWs_snoc name Hname Hcore) as (w & c & -> & Hw & Hc).
    apply Forall_app in Hnc as [_ Hncc]. inversion Hncc as [|? ? Hcn _]; subst.
    destruct (Htail [c]) as (g2 & Hg2 & Ht).
    exists [c], g2. split; [|split].
    + rewrite <- app_assoc. simpl app.
      apply star_back_one; auto.
      * exact isWhiteSpace_colon.
      * simpl. rewrite Hcn. simpl in Hg2. exact Hg2.
    + rewrite (trim_allWs (w ++ [c])); [|apply Forall_app; split; auto].
      apply trim_allWs. constructor; auto.
    + exact Ht.
  - destruct (Htail (c :: core)) as (g2 & Hg2 & Ht).
    exists (c :: core), g2. split; [|split].
    + rewrite (leadingWs_trimStart name), Hcore, <- app_assoc.
      assert (Hcc : Forall (fun c => notColon c = true) (c :: core)).
      { rewrite (leadingWs_trimStart name), Hcore in Hnc.
        apply Forall_app in Hnc as [_ H]. exact H. }
      apply star_greedy.
      * apply leadingWs_allWs.
      * pose proof (trimStart_stops name) as Hs. rewrite Hcore in Hs. exact Hs.
      * apply capPlus_greedy; auto. exact notColon_colon.
    + rewrite <- Hcore. apply trim_trimStart.
    + exact Ht.
Qed.

(** The three patterns tried before the person pattern start with another
    word. *)
Lemma earlier_patterns_fail (kw s : str) :
  Forall2 (fun a c => ci a c = true) (u "voice") kw ->
  matchKeyword (u "topic") (kw ++ s) = None
  /\ matchKeyword (u "script") (kw ++ s) = None
  /\ matchKeyword (u "visuals") (kw ++ s) = None.
Proof.
  intros Hkw. change (u "voice") with [118; 111; 105; 99; 101]%N in Hkw.
  inversion Hkw as [|a0 c0 w0 kw0 H0 Hkw0]; subst.
  inversion Hkw0 as [|a1 c1 w1 kw1 H1 _]; subst.
  unfold matchKeyword.
  change (u "topic") with [116; 111; 112; 105; 99]%N.
  change (u "script") with [115; 99; 114; 105; 112; 116]%N.
  change (u "visuals") with [118; 105; 115; 117; 97; 108; 115]%N.
  cbn [lit chr app].
  rewrite (ci_other _ 116%N _ H0), (ci_other _ 115%N _ H0)
    by (vm_compute; discriminate).
  rewrite H0, (ci_other _ 105%N _ H1) by (vm_compute; discriminate).
  auto.
Qed.

(** C4. For every message that, once trimmed, is [voice] in any case, a
    whitespace character, a name of at least one character without a colon,
    a colon and a non-empty rest, [parseCommand] answers with the
    person command, the name and the content trimmed, and not with the plain
    voice command. *)
Theorem C4_voice_person_first (messageText kw : str) (sp : N) (name rest : str) :
  trim messageText = kw ++ sp :: name ++ colon :: rest ->
  Forall2 (fun a c => ci a c = true) (u "voice") kw ->
  isWhiteSpace sp = true ->
  name <> [] ->
  Forall (fun c => notColon c = true) name ->
  rest <> [] ->
  parseCommand messageText = Some (VoicePerson (trim name) (trim rest)).
Proof.
  intros Htext Hkw Hsp Hname Hnc Hrest.
  unfold parseCommand. cbv zeta. rewrite Htext.
  destruct (earlier_patterns_fail kw (sp :: name ++ colon :: rest) Hkw)
    as (-> & -> & ->).
  destruct (matchVoicePerson_shape kw sp name rest Hkw Hsp Hname Hnc Hrest)
    as (g1 & g2 & -> & -> & ->).
  reflexivity.
Qed.

(** The example of the claim, by the theorem. *)
Lemma C4_voice_musawar :
  parseCommand (u "voice musawar: hello")
  = Some (VoicePerson (u "musawar") (u "hello")).
Proof.
  apply (C4_voice_person_first (u "voice musawar: hello") (u "voice") 32%N
           (u "musawar") (u " hello")).
  - vm_compute. reflexivity.
  - repeat constructor.
  - reflexivity.
  - discriminate.
  - repeat constructor.
  - discriminate.
Defined.

(** ** split loses only what the separator removes *)

Lemma concat_extend (c : N) (l : list str) :
  List.concat match l with
              | piece :: pieces => (c :: piece) :: pieces
              | [] => [[c]]
              end = c :: List.concat l.
Proof. destruct l; reflexivity. Qed.

Lemma splitFrom_keeps (q : N -> bool) (sep : Separator) :
  keeps q sep ->
  forall (s : str) prev skip,
    skip <= length s ->
    List.filter q (List.concat (splitFrom sep prev skip s))
    = List.filter q (skipn skip s).
Proof.
  intros Hsep. induction s as [|c s IH]; intros prev skip Hskip.
  - destruct skip; reflexivity.
  - assert (Hnone :
      List.filter q
        (List.concat match splitFrom sep (Some c) 0 s with
                     | piece :: pieces => (c :: piece) :: pieces
                     | [] => [[c]]
                     end) = List.filter q (c :: s)).
    { rewrite concat_extend. cbn [List.filter].
      rewrite (IH (Some c) 0) by lia. reflexivity. }
    destruct skip as [|k]; cbn [splitFrom].
    + destruct (sep prev (c :: s)) as [[[|n] caps]|] eqn:Hm;
        [exact Hnone| |exact Hnone].
      destruct (Hsep _ _ _ _ Hm) as [Hn Hcaps]. simpl in Hn.
      change (List.concat ([] :: caps ++ splitFrom sep (Some c) n s))
        with (List.concat (caps ++ splitFrom sep (Some c) n s)).
      rewrite concat_app, List.filter_app, Hcaps, (IH (Some c) n) by lia.
      rewrite <- List.filter_app.
      change (skipn n s) with (skipn (S n) (c :: s)).
      rewrite firstn_skipn. reflexivity.
    + simpl in Hskip. apply (IH (Some c) k). lia.
Qed.

Lemma split_keeps (q : N -> bool) (sep : Separator) (s : str) :
  keeps q sep ->
  List.filter q (List.concat (split sep s)) = List.filter q s.
Proof.
  intros Hsep. unfold split.
  rewrite (splitFrom_keeps q sep Hsep s None 0) by lia. reflexivity.
Qed.

Lemma filter_anyChar (s : str) : List.filter anyChar s = s.
Proof. induction s as [|c s IH]; simpl; congruence. Qed.

Lemma sentenceEnd_keeps : keeps anyChar sentenceEnd.
Proof.
  intros prev s n caps H. unfold sentenceEnd in H.
  destruct s as [|c s]; [discriminate|].
  destruct (isSentenceEnd c); [|discriminate].
  injection H as <- <-. simpl. split; [lia|reflexivity].
Qed.

(** The pieces and terminals of the sentence split spell the input. *)
Lemma split_sentences_concat (s : str) :
  List.concat (split sentenceEnd s) = s.
Proof.
  pose proof (split_keeps anyChar sentenceEnd s sentenceEnd_keeps) as H.
  rewrite !filter_anyChar in H. exact H.
Qed.

Section StarShape.
Context {A : Type}.

(** What a successful greedy run consumed is of the class. *)
Lemma star_inv (p : N -> bool) (k : str -> option A) (s : str) (r : A) :
  star p k s = Some r ->
  exists w v, s = w ++ v /\ Forall (fun c => p c = true) w /\ k v = Some r.
Proof.
  induction s as [|c s IH]; simpl; intros H.
  - exists [], []. auto.
  - destruct (p c) eqn:Hc.
    + destruct (star p k s) as [r'|] eqn:Hs.
      * injection H as <-. destruct (IH eq_refl) as (w & v & -> & Hw & Hk).
        exists (c :: w), v. auto.
      * exists [], (c :: s). auto.
    + exists [], (c :: s). auto.
Qed.
End StarShape.

Lemma nonWs_app (a b : str) : nonWs (a ++ b) = nonWs a ++ nonWs b.
Proof. apply List.filter_app. Qed.

Lemma nonWs_allWs (w : str) : allWs w -> nonWs w = [].
Proof.
  induction 1 as [|c w Hc _ IH]; simpl; [reflexivity|]. rewrite Hc. exact IH.
Qed.

Lemma nonWs_nil_allWs (s : str) : nonWs s = [] -> allWs s.
Proof.
  induction s as [|c s IH]; [constructor|].
  unfold nonWs. cbn [List.filter].
  destruct (isWhiteSpace c) eqn:Hc; cbn [negb]; [|discriminate].
  intros H. constructor; [exact Hc|exact (IH H)].
Qed.

Lemma paragraphBreak_keeps :
  keeps (fun c => negb (isWhiteSpace c)) paragraphBreak.
Proof.
  intros prev s n caps H. unfold paragraphBreak in H.
  destruct s as [|c s1]; [discriminate|]. cbn [chr] in H.
  destruct (newline =? c)%N eqn:Hc; [|discriminate].
  apply N.eqb_eq in Hc. subst c.
  apply star_inv in H as (w & v & -> & Hw & Hk).
  destruct v as [|d rest]; [discriminate|]. cbn [chr] in Hk.
  destruct (newline =? d)%N eqn:Hd; [|discriminate].
  apply N.eqb_eq in Hd. subst d. injection Hk as <- <-.
  assert (Hn : consumed (newline :: w ++ newline :: rest) rest
               = length (newline :: w ++ [newline])).
  { unfold consumed. simpl. rewrite !length_app. simpl. lia. }
  rewrite Hn. split.
  - simpl. rewrite !length_app. simpl. lia.
  - replace (newline :: w ++ newline :: rest)
      with ((newline :: w ++ [newline]) ++ rest)
      by (simpl; rewrite <- app_assoc; reflexivity).
    rewrite firstn_app, Nat.sub_diag, firstn_all, firstn_O, app_nil_r.
    simpl List.concat. symmetry. apply nonWs_allWs.
    constructor; [reflexivity|]. apply Forall_app. split; [exact Hw|].
    constructor; [reflexivity|constructor].
Qed.

(** The paragraphs carry all the text of the script. *)
Lemma split_paragraphs_text (s : str) :
  nonWs (List.concat (split paragraphBreak s)) = nonWs s.
Proof. apply split_keeps, paragraphBreak_keeps. Qed.

Lemma nonWs_concat (l : list str) :
  nonWs (List.concat l) = List.concat (List.map nonWs l).
Proof.
  induction l as [|a l IH]; simpl; [reflexivity|].
  rewrite nonWs_app, IH. reflexivity.
Qed.

Lemma nonWs_trimStart (s : str) : nonWs (trimStart s) = nonWs s.
Proof.
  rewrite (leadingWs_trimStart s) at 2.
  rewrite nonWs_app, (nonWs_allWs _ (leadingWs_allWs s)). reflexivity.
Qed.

Lemma nonWs_rev (s : str) : nonWs (rev s) = rev (nonWs s).
Proof. apply List.filter_rev. Qed.

(** Trimming removes whitespace only. *)
Lemma nonWs_trim (s : str) : nonWs (trim s) = nonWs s.
Proof.
  unfold trim, trimEnd.
  rewrite nonWs_rev, nonWs_trimStart, nonWs_rev, rev_involutive.
  apply nonWs_trimStart.
Qed.

Lemma trim_nil_text (s : str) : trim s = [] -> nonWs s = [].
Proof. intros H. rewrite <- nonWs_trim, H. reflexivity. Qed.

(** ** The chunker loses no text *)

Lemma list_pair_ind (P : list str -> Prop) :
  P [] -> (forall a, P [a]) -> (forall a b l, P l -> P (a :: b :: l)) ->
  forall l, P l.
Proof.
  intros H0 H1 H2 l.
  assert (H : P l /\ forall a, P (a :: l)).
  { induction l as [|b l [IH1 IH2]]; split; auto. }
  exact (proj1 H).
Qed.

Lemma joinSentences_concat (l : list str) : joinSentences l = List.concat l.
Proof.
  induction l as [|a|a b l IH] using list_pair_ind; simpl.
  - reflexivity.
  - rewrite app_nil_r. reflexivity.
  - rewrite IH. reflexivity.
Qed.

(** The break point and the remainder spell what was walked. *)
Lemma sentenceBreak_concat (sentences : list str) :
  forall best b r,
    sentenceBreak best sentences = Some (b, r) ->
    b ++ r = best ++ List.concat sentences.
Proof.
  induction sentences as [|a|a a' l IH] using list_pair_ind;
    intros best b r H; cbn [sentenceBreak] in H.
  - discriminate.
  - unfold tryBreak in H.
    destruct (_ && _)%bool; simpl in H; [|discriminate].
    injection H as <- <-. simpl. rewrite !app_nil_r. reflexivity.
  - unfold tryBreak in H. destruct (_ && _)%bool.
    + injection H as <- <-. rewrite joinSentences_concat. simpl.
      rewrite <- !app_assoc. reflexivity.
    + apply IH in H. rewrite H. simpl. rewrite <- !app_assoc. reflexivity.
Qed.

Lemma textOf_push (chunks : list str) (x y : str) :
  textOf (chunks ++ [x], y)
  = List.concat (List.map nonWs chunks) ++ nonWs x ++ nonWs y.
Proof.
  unfold textOf. simpl. rewrite List.map_app, concat_app. simpl.
  rewrite app_nil_r, <- app_assoc. reflexivity.
Qed.

Lemma nonWs_blankLine : nonWs blankLine = [].
Proof. reflexivity. Qed.

Lemma addParagraph_text (paragraph : str) (st : list str * str) :
  textOf (addParagraph paragraph st) = textOf st ++ nonWs paragraph.
Proof.
  destruct st as [chunks cur]. unfold addParagraph.
  destruct (_ && _)%bool.
  - destruct (_ <=? _)%Z.
    + rewrite textOf_push, nonWs_trim. unfold textOf; cbn [fst snd List.map List.concat].
      rewrite <- app_assoc. reflexivity.
    + unfold textOf; cbn [fst snd List.map List.concat].
      rewrite !nonWs_app, nonWs_blankLine, <- app_assoc. reflexivity.
  - destruct (strlen cur =? 0)%Z eqn:Hz.
    + assert (cur = []) as ->.
      { apply Z.eqb_eq in Hz. unfold strlen in Hz.
        destruct cur; [reflexivity|simpl in Hz; lia]. }
      unfold textOf; cbn [fst snd List.map List.concat].
      change (nonWs []) with (@nil N). rewrite app_nil_r. reflexivity.
    + unfold textOf; cbn [fst snd List.map List.concat].
      rewrite !nonWs_app, nonWs_blankLine, <- app_assoc. reflexivity.
Qed.

Lemma detectBoundary_text (more : bool) (st : list str * str) :
  textOf (detectBoundary more st) = textOf st.
Proof.
  destruct st as [chunks cur]. unfold detectBoundary.
  destruct (minChunkSize <=? _)%Z; [|reflexivity].
  destruct (_ && more)%bool.
  - rewrite textOf_push, nonWs_trim. unfold textOf; cbn [fst snd List.map List.concat].
    rewrite app_nil_r. reflexivity.
  - destruct (_ && more)%bool; [|reflexivity].
    destruct (sentenceBreak _ _) as [[b r]|] eqn:Hb; [|reflexivity].
    apply sentenceBreak_concat in Hb.
    rewrite split_sentences_concat in Hb. simpl in Hb.
    rewrite textOf_push, !nonWs_trim, <- nonWs_app, Hb. reflexivity.
Qed.

Lemma paragraphLoop_text (paragraphs : list str) :
  forall st,
    textOf (paragraphLoop paragraphs st)
    = textOf st ++ List.concat (List.map nonWs paragraphs).
Proof.
  induction paragraphs as [|raw rest IH]; intros st; cbn [paragraphLoop].
  - simpl. rewrite app_nil_r. reflexivity.
  - cbv zeta. destruct (truthy (trim raw)) eqn:Ht; cbn [negb].
    + rewrite IH, detectBoundary_text, addParagraph_text, nonWs_trim.
      simpl. rewrite <- app_assoc. reflexivity.
    + assert (nonWs raw = []) as Hraw.
      { apply trim_nil_text. destruct (trim raw); [reflexivity|discriminate]. }
      rewrite IH. simpl. rewrite Hraw. reflexivity.
Qed.

Lemma pushRest_text (st : list str * str) :
  List.concat (List.map nonWs (pushRest st)) = textOf st.
Proof.
  destruct st as [chunks cur]. unfold pushRest.
  destruct (truthy (trim cur)) eqn:Ht.
  - rewrite List.map_app, concat_app. simpl.
    rewrite app_nil_r, nonWs_trim. reflexivity.
  - assert (nonWs cur = []) as Hcur.
    { apply trim_nil_text. destruct (trim cur); [reflexivity|discriminate]. }
    unfold textOf; cbn [fst snd List.map List.concat]. rewrite Hcur, app_nil_r. reflexivity.
Qed.




Lemma isEmpty_true {A} (l : list A) : isEmpty l = true -> l = [].
Proof. destruct l; [reflexivity|discriminate]. Qed.

(** The chunks pushed by the paragraph pass carry the text of the script. *)
Lemma paragraph_pass_text (script : str) :
  List.concat
    (List.map nonWs
       (pushRest (paragraphLoop (split paragraphBreak script) ([], []))))
  = nonWs script.
Proof.
  rewrite pushRest_text, paragraphLoop_text. unfold textOf at 1; cbn [fst snd List.map List.concat app nonWs List.filter].
  rewrite <- nonWs_concat. apply split_paragraphs_text.
Qed.


(** ** The sentence-only pass is not reached by a script that has text *)

Lemma trimStart_snoc (a : str) (c : N) :
  isWhiteSpace c = false -> trimStart (a ++ [c]) = trimStart a ++ [c].
Proof.
  intros Hc. induction a as [|d a IH]; simpl; [rewrite Hc; reflexivity|].
  destruct (isWhiteSpace d); [exact IH|reflexivity].
Qed.

Lemma trimStart_trim (s : str) : trimStart (trim s) = trim s.
Proof.
  unfold trim, trimEnd.
  destruct (trimStart s) as [|c t] eqn:Ht; [reflexivity|].
  assert (Hc : isWhiteSpace c = false).
  { pose proof (trimStart_stops s) as H. rewrite Ht in H. exact H. }
  simpl rev. rewrite trimStart_snoc by exact Hc.
  rewrite rev_app_distr. simpl. rewrite Hc. reflexivity.
Qed.

Lemma trim_idem (s : str) : trim (trim s) = trim s.
Proof.
  unfold trim at 1. rewrite trimStart_trim.
  unfold trim, trimEnd. rewrite rev_involutive, trimStart_idem. reflexivity.
Qed.

(** A script that is one paragraph with some text leaves the chunker as one
    chunk, whatever its length and its sentences: the paragraph pass pushes
    it as the remaining content, so the test that guards the sentence-only
    pass finds a chunk. *)
Lemma single_paragraph_one_chunk (script : str) :
  split paragraphBreak script = [script] ->
  trim script <> [] ->
  splitScriptIntoChunks script = [trim script].
Proof.
  intros Hsplit Htext.
  set (p := trim script) in *.
  assert (Hp : truthy p = true) by (destruct p; [congruence|reflexivity]).
  assert (Hpush : pushRest (paragraphLoop [script] ([], [])) = [p]).
  { cbn [paragraphLoop]. cbv zeta. fold p. rewrite Hp. cbn [negb isEmpty].
    assert (Hst : detectBoundary false (addParagraph p ([], [])) = ([], p)).
    { unfold addParagraph. change (strlen []) with 0%Z.
      cbn [Z.ltb Z.eqb Z.compare andb].
      unfold detectBoundary. rewrite !andb_false_r.
      destruct (_ <=? _)%Z; reflexivity. }
    rewrite Hst. unfold pushRest. unfold p at 1 2. rewrite trim_idem. fold p.
    rewrite Hp. reflexivity. }
  unfold splitScriptIntoChunks.
  destruct script as [|c0 s0]; [exfalso; apply Htext; reflexivity|].
  cbn [truthy negb]. rewrite Hsplit, Hpush. reflexivity.
Qed.

(** C3. The script of 180 short sentences without a blank line is one
    paragraph longer than [maxChunkSize] and has sentence boundaries, yet
    the chunker returns it whole as a single chunk: the sentence-only pass
    is not entered. *)
Theorem C3_long_paragraph_is_one_chunk :
  split paragraphBreak longParagraph = [longParagraph]
  /\ (maxChunkSize < strlen longParagraph)%Z
  /\ length (split sentenceEnd longParagraph) = 361
  /\ splitScriptIntoChunks longParagraph = [longParagraph].
Proof. vm_compute. repeat split; reflexivity. Qed.

(** ** The size of the chunks *)

Lemma isSentenceEnd_not_ws (c : N) :
  isWhiteSpace c = true -> isSentenceEnd c = false.
Proof.
  intros Hc. unfold isSentenceEnd.
  destruct (c =? 1748)%N eqn:H1;
    [apply N.eqb_eq in H1; subst; discriminate|].
  destruct (c =? 1567)%N eqn:H2;
    [apply N.eqb_eq in H2; subst; discriminate|].
  destruct (c =? 33)%N eqn:H3;
    [apply N.eqb_eq in H3; subst; discriminate|].
  reflexivity.
Qed.

(** Whitespace has no sentence terminal to split at. *)
Lemma split_sentences_allWs (s : str) :
  allWs s -> forall prev, splitFrom sentenceEnd prev 0 s = [s].
Proof.
  induction 1 as [|c s Hc _ IH]; intros prev; [reflexivity|].
  cbn [splitFrom sentenceEnd]. rewrite (isSentenceEnd_not_ws c Hc), IH.
  reflexivity.
Qed.

Lemma within_push (b : Z) (chunks : list str) (x : str) :
  within b chunks -> (strlen x <= b)%Z -> within b (chunks ++ [trim x]).
Proof.
  intros Hc Hx. apply Forall_app. split; [exact Hc|].
  constructor; [|constructor]. pose proof (strlen_trim x). lia.
Qed.

Lemma strlen_app (a b : str) : strlen (a ++ b) = (strlen a + strlen b)%Z.
Proof. unfold strlen. rewrite length_app. lia. Qed.

Lemma addParagraph_bound (P : Z) (paragraph : str) (chunks : list str)
    (cur : str) :
  (strlen paragraph <= P)%Z ->
  within (chunkBound P) chunks -> (strlen cur < targetChunkSize)%Z ->
  within (chunkBound P) (fst (addParagraph paragraph (chunks, cur)))
  /\ (strlen (snd (addParagraph paragraph (chunks, cur))) <= chunkBound P)%Z.
Proof.
  intros Hp Hc Hcur. unfold addParagraph.
  assert (Hb : (maxChunkSize + 2 <= chunkBound P
                /\ minChunkSize + 1 + P <= chunkBound P)%Z)
    by (unfold chunkBound; lia).
  unfold maxChunkSize, minChunkSize, targetChunkSize in *.
  destruct (_ && _)%bool eqn:Hfull.
  - destruct (1050 <=? strlen cur)%Z eqn:Hmin; cbn [fst snd].
    + split; [apply within_push; [exact Hc|lia]|lia].
    + apply Z.leb_gt in Hmin. split; [exact Hc|].
      rewrite !strlen_app. change (strlen blankLine) with 2%Z. lia.
  - destruct (strlen cur =? 0)%Z eqn:Hz; cbn [fst snd].
    + split; [exact Hc|lia].
    + split; [exact Hc|].
      rewrite !strlen_app. change (strlen blankLine) with 2%Z.
      apply andb_false_iff in Hfull as [H|H].
      * apply Z.ltb_ge in H. apply Z.eqb_neq in Hz.
        unfold strlen in *. lia.
      * apply Z.ltb_ge in H. lia.
Qed.

(** After the boundary detection with another paragraph to come, the buffer
    is below the target; the sentence walk is never started, since its size
    test is only reached below the target. *)
Lemma detectBoundary_bound (b : Z) (more : bool) (chunks : list str)
    (cur : str) :
  within b chunks -> (strlen cur <= b)%Z ->
  within b (fst (detectBoundary more (chunks, cur)))
  /\ (strlen (snd (detectBoundary more (chunks, cur))) <= b)%Z
  /\ (more = true ->
      (strlen (snd (detectBoundary more (chunks, cur))) < targetChunkSize)%Z).
Proof.
  intros Hc Hcur. unfold detectBoundary.
  unfold maxChunkSize, minChunkSize, targetChunkSize in *.
  destruct more.
  - rewrite !andb_true_r.
    destruct (1050 <=? strlen cur)%Z eqn:Hmin; cbn [fst snd].
    + destruct (1200 <=? strlen cur)%Z eqn:Htarget; cbn [fst snd].
      * split; [apply within_push; assumption|].
        change (strlen []) with 0%Z. apply Z.leb_le in Htarget.
        split; intros; lia.
      * apply Z.leb_gt in Htarget.
        destruct (1650 - 200 <=? strlen cur)%Z eqn:Hnear;
          [apply Z.leb_le in Hnear; lia|].
        cbn [fst snd]. auto.
    + apply Z.leb_gt in Hmin. repeat split; auto. intros _. lia.
  - rewrite !andb_false_r.
    destruct (1050 <=? strlen cur)%Z; cbn [fst snd];
      repeat split; auto; discriminate.
Qed.

Lemma paragraphLoop_bound (P : Z) (paragraphs : list str) :
  Forall (fun p => (strlen (trim p) <= P)%Z) paragraphs ->
  forall chunks cur,
    within (chunkBound P) chunks -> (strlen cur < targetChunkSize)%Z ->
    within (chunkBound P) (fst (paragraphLoop paragraphs (chunks, cur)))
    /\ (strlen (snd (paragraphLoop paragraphs (chunks, cur)))
        <= chunkBound P)%Z.
Proof.
  assert (Ht : (targetChunkSize <= chunkBound P)%Z)
    by (unfold chunkBound, targetChunkSize, maxChunkSize; lia).
  induction 1 as [|raw rest Hraw _ IH]; intros chunks cur Hc Hcur;
    cbn [paragraphLoop].
  - cbn [fst snd]. split; [exact Hc|lia].
  - cbv zeta. destruct (truthy (trim raw)); cbn [negb]; [|apply IH; auto].
    destruct (addParagraph_bound P (trim raw) chunks cur Hraw Hc Hcur)
      as [Hc1 Hcur1].
    destruct (addParagraph (trim raw) (chunks, cur)) as [chunks1 cur1].
    cbn [fst snd] in *.
    destruct (detectBoundary_bound (chunkBound P) (negb (isEmpty rest))
                chunks1 cur1 Hc1 Hcur1) as (Hc2 & Hcur2 & Hmore).
    destruct (detectBoundary (negb (isEmpty rest)) (chunks1, cur1))
      as [chunks2 cur2].
    cbn [fst snd] in *.
    destruct rest as [|raw' rest'].
    + cbn [paragraphLoop fst snd]. auto.
    + apply IH; auto.
Qed.

Lemma pushRest_bound (b : Z) (chunks : list str) (cur : str) :
  within b chunks -> (strlen cur <= b)%Z -> within b (pushRest (chunks, cur)).
Proof.
  intros Hc Hcur. unfold pushRest.
  destruct (truthy (trim cur)); [apply within_push|]; assumption.
Qed.

(** The sentence-only pass on a script of whitespace pushes at most the
    empty chunk. *)
Lemma sentence_pass_allWs (script : str) :
  allWs script ->
  pushRest (sentenceLoop (split sentenceEnd script) ([], []))
  = if (targetChunkSize <=? strlen script)%Z then [[]] else [].
Proof.
  intros Hws. unfold split. rewrite (split_sentences_allWs script Hws).
  cbn [sentenceLoop]. unfold sentenceStep.
  change (strlen []) with 0%Z. cbn [Z.ltb Z.compare andb app].
  destruct (_ <=? _)%Z; unfold pushRest;
    rewrite ?(trim_allWs script Hws); reflexivity.
Qed.

(** C2, as the program has it. When no trimmed paragraph of the script has
    more than [P] characters, no chunk has more than
    [max (maxChunkSize + 2) (minChunkSize + 1 + P)]: a chunk is larger than
    [maxChunkSize] when a paragraph is, or when a buffer still below
    [minChunkSize] takes the next paragraph rather than being pushed too
    small. *)
Theorem C2_chunk_size_bound (script : str) (P : Z) :
  Forall (fun p => (strlen (trim p) <= P)%Z) (split paragraphBreak script) ->
  Forall (fun c => (strlen c <= chunkBound P)%Z) (splitScriptIntoChunks script).
Proof.
  intros Hpar. unfold splitScriptIntoChunks.
  destruct (truthy script) eqn:Hs; cbn [negb]; [|constructor].
  assert (Hb : (maxChunkSize + 2 <= chunkBound P)%Z)
    by (unfold chunkBound; lia).
  pose proof (paragraph_pass_text script) as Htext.
  assert (H0 : within (chunkBound P)
                 (pushRest (paragraphLoop (split paragraphBreak script) ([], [])))).
  { destruct (paragraphLoop_bound P _ Hpar [] []) as [Hc Hcur].
    - constructor.
    - reflexivity.
    - destruct (paragraphLoop _ _) as [chunks cur].
      apply pushRest_bound; assumption. }
  cbv zeta. set (chunks0 := pushRest (paragraphLoop _ _)) in *.
  unfold maxChunkSize, targetChunkSize in *.
  destruct (isEmpty chunks0) eqn:He; cbn [andb].
  - apply isEmpty_true in He. rewrite He in Htext. simpl in Htext.
    symmetry in Htext. apply nonWs_nil_allWs in Htext.
    destruct (1650 <? strlen script)%Z eqn:Hlong.
    + rewrite He, (sentence_pass_allWs script Htext).
      unfold targetChunkSize.
      destruct (1200 <=? strlen script)%Z eqn:Htar; cbn [isEmpty].
      * constructor; [|constructor]. change (strlen []) with 0%Z. lia.
      * apply Z.ltb_lt in Hlong. apply Z.leb_gt in Htar. lia.
    + rewrite He. cbn [isEmpty]. constructor; [|constructor].
      apply Z.ltb_ge in Hlong. lia.
  - rewrite ?He. exact H0.
Qed.

Lemma Forall_of_forallb {A} (f : A -> bool) (P : A -> Prop) (l : list A) :
  (forall x, f x = true -> P x) -> forallb f l = true -> Forall P l.
Proof.
  intros Hf. induction l as [|a l IH]; simpl; intros H; constructor.
  - apply Hf. apply andb_prop in H. tauto.
  - apply IH. apply andb_prop in H. tauto.
Qed.

(** C2, as stated, fails on two paragraphs of 1000 characters made of
    sentences of ten: no paragraph and no sentence is larger than
    [maxChunkSize], and the only chunk has 2002 characters. *)
Lemma C2_two_paragraphs_oversized :
  ~ (Forall (fun p => (strlen (trim p) <= maxChunkSize)%Z)
       (split paragraphBreak twoParagraphs)
     /\ Forall (fun x => (strlen x <= maxChunkSize)%Z)
          (split sentenceEnd twoParagraphs)
     -> Forall (fun c => (strlen c <= maxChunkSize)%Z)
          (splitScriptIntoChunks twoParagraphs)).
Proof.
  intros H.
  assert (Hc : splitScriptIntoChunks twoParagraphs = [twoParagraphs])
    by (vm_compute; reflexivity).
  rewrite Hc in H.
  assert (Hpre :
    Forall (fun p => (strlen (trim p) <= maxChunkSize)%Z)
      (split paragraphBreak twoParagraphs)
    /\ Forall (fun x => (strlen x <= maxChunkSize)%Z)
         (split sentenceEnd twoParagraphs)).
  { split.
    - apply (Forall_of_forallb
               (fun p => (strlen (trim p) <=? maxChunkSize)%Z));
        [intros x; apply Z.leb_le|vm_compute; reflexivity].
    - apply (Forall_of_forallb (fun p => (strlen p <=? maxChunkSize)%Z));
        [intros x; apply Z.leb_le|vm_compute; reflexivity]. }
  specialize (H Hpre). inversion H as [|? ? Hlen _]; subst.
  vm_compute in Hlen. apply Hlen. reflexivity.
Qed.

(** The bound at the two paragraphs of 1000 characters. *)
Lemma C2_bound_at_two_paragraphs :
  Forall (fun c => (strlen c <= chunkBound 1000)%Z)
    (splitScriptIntoChunks twoParagraphs).
Proof.
  apply (C2_chunk_size_bound twoParagraphs 1000).
  apply (Forall_of_forallb (fun p => (strlen (trim p) <=? 1000)%Z));
    [intros x; apply Z.leb_le|vm_compute; reflexivity].
Defined.

(** ** Frame rules of the handlers *)

Section Frames.
Context {X : Type} (part : World -> X).

Lemma preserves_ret {A} (a : A) : preserves part (ret a).
Proof. intros w. reflexivity. Qed.

Lemma preserves_bind {A B} (m : M A) (k : A -> M B) :
  preserves part m -> (forall a, preserves part (k a)) ->
  preserves part (bind m k).
Proof.
  intros Hm Hk w. unfold bind. specialize (Hm w).
  destruct (m w) as [a w1]. simpl in Hm. rewrite Hk. exact Hm.
Qed.

Lemma preserves_now : preserves part now.
Proof. intros w. reflexivity. Qed.

Lemma preserves_readFile (p : Path) : preserves part (readFile p).
Proof. intros w. reflexivity. Qed.

Lemma preserves_getHeadlines (j : str) : preserves part (getHeadlines j).
Proof. intros w. reflexivity. Qed.
End Frames.

Lemma store_sendMessage (d : Delivery) :
  preserves currentHeadlines (sendMessage d).
Proof. intros w. reflexivity. Qed.

Lemma store_request {A} (answer : nat -> A) (r : Request) :
  preserves currentHeadlines (request answer r).
Proof. intros w. reflexivity. Qed.

Lemma store_sleep (ms : Z) : preserves currentHeadlines (sleep ms).
Proof. intros w. reflexivity. Qed.

Lemma store_setFiles f : preserves currentHeadlines (setFiles f).
Proof. intros w. reflexivity. Qed.

Lemma store_writeFile p data : preserves currentHeadlines (writeFile p data).
Proof. intros w. reflexivity. Qed.

Lemma store_unlink p : preserves currentHeadlines (unlink p).
Proof. intros w. reflexivity. Qed.

Lemma sent_writeFile p data : preserves sent (writeFile p data).
Proof. intros w. reflexivity. Qed.

Lemma sent_unlink p : preserves sent (unlink p).
Proof. intros w. reflexivity. Qed.

Lemma sent_request {A} (answer : nat -> A) (r : Request) :
  preserves sent (request answer r).
Proof. intros w. reflexivity. Qed.

Lemma sent_sleep (ms : Z) : preserves sent (sleep ms).
Proof. intros w. reflexivity. Qed.

Lemma sent_setFiles f : preserves sent (setFiles f).
Proof. intros w. reflexivity. Qed.

Lemma requests_sendMessage (d : Delivery) : preserves requests (sendMessage d).
Proof. intros w. reflexivity. Qed.

Lemma requests_sleep (ms : Z) : preserves requests (sleep ms).
Proof. intros w. reflexivity. Qed.

Create HintDb frame.

#[export] Hint Resolve preserves_ret preserves_now preserves_readFile
  preserves_getHeadlines store_sendMessage store_request store_sleep
  store_setFiles store_writeFile store_unlink sent_request sent_sleep
  sent_setFiles sent_writeFile sent_unlink requests_sendMessage
  requests_sleep : frame.

(** Walks through a handler: binds, branches, then the primitives. *)
Ltac frame :=
  repeat first
    [ solve [auto with frame]
    | progress intros
    | match goal with
      | |- preserves _ (match ?x with _ => _ end) => destruct x
      | |- preserves _ (if ?b then _ else _) => destruct b
      end
    | apply preserves_bind ].

(** The audio pipeline touches the requests, the clock and the files only:
    it preserves every part of the world that those primitives preserve. *)
Section AudioFrame.
Context {X : Type} (part : World -> X).
Hypothesis part_request :
  forall A (answer : nat -> A) r, preserves part (request answer r).
Hypothesis part_sleep : forall ms, preserves part (sleep ms).
Hypothesis part_writeFile : forall p data, preserves part (writeFile p data).
Hypothesis part_unlink : forall p, preserves part (unlink p).
Variable E : Env.

Ltac audio_frame :=
  pose proof part_request; pose proof part_sleep; pose proof part_writeFile;
  pose proof part_unlink; frame.

Lemma frame_generateSingleAudioChunk text voiceId chunkNumber :
  preserves part (generateSingleAudioChunk E text voiceId chunkNumber).
Proof. unfold generateSingleAudioChunk. audio_frame. Qed.

Lemma frame_readFiles paths : preserves part (readFiles paths).
Proof. induction paths; cbn [readFiles]; audio_frame. Qed.

Lemma frame_unlinkAll paths : preserves part (unlinkAll paths).
Proof. induction paths; cbn [unlinkAll]; audio_frame. Qed.

Lemma frame_synthesizeChunks voiceId chunks :
  forall i paths, preserves part (synthesizeChunks E voiceId chunks i paths).
Proof.
  induction chunks as [|c rest IH]; intros i paths; cbn [synthesizeChunks].
  - frame.
  - apply preserves_bind; [apply frame_generateSingleAudioChunk|].
    intros chunkPath. apply preserves_bind; [destruct rest; audio_frame|].
    intros _. apply IH.
Qed.

Lemma frame_generateAudioWithVoice script voiceId :
  preserves part (generateAudioWithVoice E script voiceId).
Proof.
  unfold generateAudioWithVoice, combineAudioChunks.
  pose proof frame_generateSingleAudioChunk.
  pose proof frame_synthesizeChunks.
  pose proof frame_readFiles. pose proof frame_unlinkAll.
  audio_frame.
Qed.
End AudioFrame.

Lemma store_generateAudioWithVoice (E : Env) script voiceId :
  preserves currentHeadlines (generateAudioWithVoice E script voiceId).
Proof.
  apply frame_generateAudioWithVoice; intros; intros w; reflexivity.
Qed.

Lemma sent_generateAudioWithVoice (E : Env) script voiceId :
  preserves sent (generateAudioWithVoice E script voiceId).
Proof.
  apply frame_generateAudioWithVoice; intros; intros w; reflexivity.
Qed.

Section StoreFrame.
Variable E : Env.

Lemma store_processVoiceOnly c m j :
  preserves currentHeadlines (processVoiceOnly E c m j).
Proof.
  unfold processVoiceOnly, generateAudio.
  pose proof (store_generateAudioWithVoice E). frame.
Qed.

Lemma store_processVoiceWithPerson c v m j :
  preserves currentHeadlines (processVoiceWithPerson E c v m j).
Proof.
  unfold processVoiceWithPerson, getVoiceId.
  pose proof (store_generateAudioWithVoice E). pose proof store_processVoiceOnly.
  frame.
Qed.

Lemma store_sendChunks channel chunks :
  preserves currentHeadlines (sendChunks channel chunks).
Proof. induction chunks; cbn [sendChunks]; frame. Qed.

Lemma store_processEditorial editorial m :
  preserves currentHeadlines (processEditorial E editorial m).
Proof.
  unfold processEditorial, sendToWhatsAppGroups, callPerplexityAPI.
  pose proof store_sendChunks. frame.
Qed.

Lemma store_processHeadlineSelection number m j :
  preserves currentHeadlines (processHeadlineSelection E number m j).
Proof. unfold processHeadlineSelection, callPerplexityAPI. frame. Qed.
End StoreFrame.

(** C10. Handling a headline selection leaves the headline store as it was,
    for every number, channel and world: on success, on a missing or expired
    session and on a number out of range nothing is written and the expired
    entry stays.  The same holds for every command but [Agenda], and for the
    editorial path. *)
Theorem C10_selection_leaves_store (E : Env) :
  (forall number messageId remoteJid w,
      currentHeadlines
        (snd (processHeadlineSelection E number messageId remoteJid w))
      = currentHeadlines w)
  /\ (forall command messageId remoteJid w,
        command <> Agenda ->
        currentHeadlines (snd (handleCommand E command messageId remoteJid w))
        = currentHeadlines w)
  /\ (forall editorial messageId w,
        currentHeadlines (snd (processEditorial E editorial messageId w))
        = currentHeadlines w).
Proof.
  split; [|split].
  - intros number m j. apply store_processHeadlineSelection.
  - intros command m j w Hc. revert w.
    change (preserves currentHeadlines (handleCommand E command m j)).
    destruct command; cbn [handleCommand]; try congruence.
    + apply store_processEditorial.
    + unfold processScriptOnly, callPerplexityAPI. frame.
    + unfold processVisualsOnly, callVisualsAPI. frame.
    + apply store_processVoiceWithPerson.
    + apply store_processVoiceOnly.
    + apply store_processHeadlineSelection.
  - intros editorial m. apply store_processEditorial.
Qed.

(** ** The editorial path *)

Lemma callPerplexityAPI_run (E : Env) (editorial : str) (w : World) :
  callPerplexityAPI E editorial w
  = (chat E (length (requests w)) (editorialPrompt E editorial) 4000,
     {| clock := clock w; currentHeadlines := currentHeadlines w;
        sent := sent w;
        requests := requests w
                    ++ [ChatCompletion (editorialPrompt E editorial) 4000];
        files := files w |}).
Proof. reflexivity. Qed.

(** C6. When the completion for an editorial is not usable (the request
    throws or answers with the empty string), or when the script extracted
    from it is empty, [processEditorial] sends nothing: no heading, no chunk
    and no reaction; so does the [Topic] command, which runs it. *)
Theorem C6_failed_generation_sends_nothing (E : Env)
    (editorial messageId remoteJid : str) (w : World) :
  usable (fst (callPerplexityAPI E editorial w)) = None
  \/ (exists response,
        usable (fst (callPerplexityAPI E editorial w)) = Some response
        /\ extractScriptAndVisuals response = []) ->
  sent (snd (processEditorial E editorial messageId w)) = sent w
  /\ sent (snd (handleCommand E (Topic editorial) messageId remoteJid w))
     = sent w.
Proof.
  intros H. cbn [handleCommand]. unfold processEditorial, bind.
  rewrite callPerplexityAPI_run in *. cbn [fst] in H.
  destruct H as [-> | (response & -> & Hscript)].
  - split; reflexivity.
  - rewrite Hscript. split; reflexivity.
Qed.

(** The completion throws: nothing is sent. *)
Lemma C6_service_down :
  sent (snd (processEditorial
               (exampleEnv (fun _ _ _ => None) (fun _ _ _ => None)
                  (fun _ => None))
               (u "floods in Punjab") (u "MSG1") (emptyWorld 0))) = [].
Proof.
  apply (C6_failed_generation_sends_nothing
           (exampleEnv (fun _ _ _ => None) (fun _ _ _ => None) (fun _ => None))
           (u "floods in Punjab") (u "MSG1") (u "content@g.us") (emptyWorld 0)).
  left. reflexivity.
Defined.

Lemma sendChunks_run (channel : str) (chunks : list str) :
  forall w,
    sent (snd (sendChunks channel chunks w))
    = sent w ++ List.map (TextDelivery channel) chunks
    /\ requests (snd (sendChunks channel chunks w)) = requests w
    /\ files (snd (sendChunks channel chunks w)) = files w.
Proof.
  induction chunks as [|c rest IH]; intros w; cbn [sendChunks List.map].
  - rewrite app_nil_r. auto.
  - unfold bind. cbn [sendMessage sleep].
    match goal with |- context [sendChunks channel rest ?w1] =>
      destruct (IH w1) as (Hs & Hr & Hf) end.
    rewrite Hs, Hr, Hf. cbn [sent requests files].
    rewrite <- app_assoc. auto.
Qed.

(** On success the editorial path sends the heading, one text per chunk of
    the distribution chunker in order, then the reaction, and asks the
    services for the completion only. *)
Lemma processEditorial_success (E : Env) (editorial messageId : str)
    (w : World) (response : str) :
  usable (fst (callPerplexityAPI E editorial w)) = Some response ->
  extractScriptAndVisuals response <> [] ->
  sent (snd (processEditorial E editorial messageId w))
  = sent w
    ++ [TextDelivery (demoScript (groupJIDs E)) (heading editorial)]
    ++ List.map (TextDelivery (demoScript (groupJIDs E)))
         (chunkText (extractScriptAndVisuals response) 3500)
    ++ [ReactionDelivery (content (groupJIDs E)) messageId [checkMark]]
  /\ requests (snd (processEditorial E editorial messageId w))
     = requests w ++ [ChatCompletion (editorialPrompt E editorial) 4000].
Proof.
  intros Hr Hscript. unfold processEditorial, bind.
  rewrite callPerplexityAPI_run in *. cbn [fst] in Hr. rewrite Hr.
  destruct (extractScriptAndVisuals response) as [|c script] eqn:He;
    [congruence|].
  cbn [truthy negb]. unfold sendToWhatsAppGroups, bind.
  cbn [truthy sendMessage ret].
  match goal with |- context [sendChunks ?ch ?cs ?w1] =>
    destruct (sendChunks_run ch cs w1) as (Hs & Hq & _);
    destruct (sendChunks ch cs w1) as [[] w2] end.
  cbn [snd fst sent requests] in *. unfold ret. cbn [sendMessage snd sent requests].
  rewrite Hs, Hq, <- !app_assoc. auto.
Qed.

(** ** The distribution chunker on a script of two sentences *)

Lemma allWs_rev (w : str) : allWs w -> allWs (rev w).
Proof. intros H. apply Forall_rev. exact H. Qed.

Lemma trimEnd_app_ws (s w : str) : allWs w -> trimEnd (s ++ w) = trimEnd s.
Proof.
  intros Hw. unfold trimEnd.
  rewrite rev_app_distr, (trimStart_allWs_app (rev w)) by (apply allWs_rev, Hw).
  reflexivity.
Qed.

Lemma trimStart_app (s w : str) :
  trimStart s <> [] -> trimStart (s ++ w) = trimStart s ++ w.
Proof.
  induction s as [|c s IH]; simpl; [congruence|].
  destruct (isWhiteSpace c); [exact IH|reflexivity].
Qed.

(** Whitespace added at the end is trimmed away. *)
Lemma trim_app_ws (s w : str) : allWs w -> trim (s ++ w) = trim s.
Proof.
  intros Hw. unfold trim.
  destruct (trimStart s) as [|c t] eqn:Ht.
  - apply trimStart_nil_allWs in Ht.
    rewrite (trimStart_allWs (s ++ w)); [reflexivity|].
    apply Forall_app. split; assumption.
  - rewrite trimStart_app by (rewrite Ht; discriminate).
    rewrite Ht. apply trimEnd_app_ws, Hw.
Qed.

Lemma allWs_space : allWs [space].
Proof. constructor; [reflexivity|constructor]. Qed.





(** ** The headline session and its expiry *)

Lemma usable_inv (r : option str) (response : str) :
  usable r = Some response -> r = Some response /\ response <> [].
Proof.
  destruct r as [[|c s]|]; simpl; intros H; try discriminate.
  injection H as <-. split; [reflexivity|discriminate].
Qed.

(** What a successful agenda leaves in the world: the numbered lines of the
    response under the channel, stamped with the clock, and the response
    sent back. *)
Lemma processAgenda_success (E : Env) (messageId remoteJid : str) (w : World)
    (response : str) :
  usable (fst (callHeadlinesAPI E w)) = Some response ->
  snd (processAgenda E messageId remoteJid w)
  = {| clock := clock w;
       currentHeadlines :=
         <[remoteJid :=
             {| headlines := List.filter isNumbered (split lineFeed response);
                timestamp := clock w |}]> (currentHeadlines w);
       sent := sent w ++ [TextDelivery remoteJid response];
       requests := requests w ++ [ChatCompletion (headlinesPrompt E) 1000];
       files := files w |}.
Proof.
  intros Hr. unfold processAgenda, bind.
  unfold callHeadlinesAPI, request in *. cbn [fst] in Hr. rewrite Hr.
  reflexivity.
Qed.

Lemma selection_missing (E : Env) (number : Z) (messageId remoteJid : str)
    (w : World) :
  currentHeadlines w !! remoteJid = None ->
  processHeadlineSelection E number messageId remoteJid w = refused remoteJid w.
Proof.
  intros H. unfold processHeadlineSelection, bind, getHeadlines, now.
  rewrite H. reflexivity.
Qed.

Lemma selection_expired (E : Env) (number : Z) (messageId remoteJid : str)
    (w : World) (session : HeadlineSession) :
  currentHeadlines w !! remoteJid = Some session ->
  (3600000 < clock w - timestamp session)%Z ->
  processHeadlineSelection E number messageId remoteJid w = refused remoteJid w.
Proof.
  intros H Hold. unfold processHeadlineSelection, bind, getHeadlines, now.
  rewrite H. apply Z.ltb_lt in Hold. rewrite Hold. reflexivity.
Qed.

Lemma selection_fresh (E : Env) (number : Z) (messageId remoteJid : str)
    (w : World) (session : HeadlineSession) :
  currentHeadlines w !! remoteJid = Some session ->
  (clock w - timestamp session <= 3600000)%Z ->
  (1 <= number <= Z.of_nat (length (headlines session)))%Z ->
  exists selectedHeadline,
    headlines session !! Z.to_nat (number - 1) = Some selectedHeadline
    /\ requests (snd (processHeadlineSelection E number messageId remoteJid w))
       = requests w
         ++ [ChatCompletion (selectionPrompt E number selectedHeadline) 4000]
    /\ sent (snd (processHeadlineSelection E number messageId remoteJid w))
       = sent w
         ++ [TextDelivery remoteJid
               (scriptReply
                  (chat E (length (requests w))
                     (selectionPrompt E number selectedHeadline) 4000))].
Proof.
  intros H Hfresh Hrange.
  destruct (lookup_lt_is_Some_2 (headlines session) (Z.to_nat (number - 1)))
    as [selected Hsel]; [lia|].
  exists selected. split; [exact Hsel|].
  unfold processHeadlineSelection, bind, getHeadlines, now.
  rewrite H. apply Z.ltb_ge in Hfresh. rewrite Hfresh.
  assert (Hin : ((number <? 1)
                 || (Z.of_nat (length (headlines session)) <? number))%Z = false).
  { apply orb_false_iff. split; apply Z.ltb_ge; lia. }
  rewrite Hin, Hsel, callPerplexityAPI_run.
  unfold scriptReply, selectionPrompt.
  destruct (usable _); split; reflexivity.
Qed.

(** C5. After an agenda has stored the headlines of a channel, a selection
    that arrives more than 3600000 ms later is answered with the instruction
    to type agenda first and nothing else happens: no request is made.  A
    channel without a session is answered in the same way.  A selection that
    arrives at most one hour later (59 minutes, say) with a number of the
    list asks for the script of the selected headline, its number prefix
    removed, and replies with it. *)
Theorem C5_headline_session_expiry (E : Env) (w0 : World)
    (agendaId messageId remoteJid : str) (response : str) (number d : Z) :
  usable (fst (callHeadlinesAPI E w0)) = Some response ->
  let w1 := snd (processAgenda E agendaId remoteJid w0) in
  let list := List.filter isNumbered (split lineFeed response) in
  ((3600000 < d)%Z ->
   processHeadlineSelection E number messageId remoteJid (elapse d w1)
   = refused remoteJid (elapse d w1))
  /\ (forall w,
        currentHeadlines w !! remoteJid = None ->
        processHeadlineSelection E number messageId remoteJid w
        = refused remoteJid w)
  /\ ((d <= 3600000)%Z ->
      (1 <= number <= Z.of_nat (length list))%Z ->
      exists selectedHeadline,
        list !! Z.to_nat (number - 1) = Some selectedHeadline
        /\ requests (snd (processHeadlineSelection E number messageId
                            remoteJid (elapse d w1)))
           = requests (elapse d w1)
             ++ [ChatCompletion (selectionPrompt E number selectedHeadline)
                   4000]
        /\ sent (snd (processHeadlineSelection E number messageId remoteJid
                        (elapse d w1)))
           = sent (elapse d w1)
             ++ [TextDelivery remoteJid
                   (scriptReply
                      (chat E (length (requests (elapse d w1)))
                         (selectionPrompt E number selectedHeadline) 4000))]).
Proof.
  intros Hr w1 list.
  assert (Hstore :
    currentHeadlines (elapse d w1) !! remoteJid
    = Some {| headlines := list; timestamp := clock w0 |}).
  { unfold w1. rewrite (processAgenda_success E agendaId remoteJid w0 response Hr).
    unfold elapse. cbn [sleep snd currentHeadlines].
    apply lookup_insert_eq. }
  assert (Hclock : clock (elapse d w1) = (clock w0 + d)%Z).
  { unfold w1. rewrite (processAgenda_success E agendaId remoteJid w0 response Hr).
    reflexivity. }
  split; [|split].
  - intros Hd. apply (selection_expired E number messageId remoteJid _ _ Hstore).
    rewrite Hclock. cbn [timestamp]. lia.
  - intros w Hnone. apply selection_missing, Hnone.
  - intros Hd Hn.
    apply (selection_fresh E number messageId remoteJid _ _ Hstore).
    + rewrite Hclock. cbn [timestamp]. lia.
    + exact Hn.
Qed.

(** Sixty-five minutes after the agenda the selection of headline 3 is
    refused; fifty-nine minutes after it the script for the third headline
    is requested and sent. *)
Lemma C5_at_65_and_59_minutes :
  processHeadlineSelection agendaEnv 3 (u "MSG2") (u "user@s.whatsapp.net")
    (elapse 3900000 afterAgenda)
  = refused (u "user@s.whatsapp.net") (elapse 3900000 afterAgenda)
  /\ sent (snd (processHeadlineSelection agendaEnv 3 (u "MSG2")
                  (u "user@s.whatsapp.net") (elapse 3540000 afterAgenda)))
     = [ TextDelivery (u "user@s.whatsapp.net") agendaResponse;
         TextDelivery (u "user@s.whatsapp.net") (u "A script about Gamma") ]
  /\ requests (snd (processHeadlineSelection agendaEnv 3 (u "MSG2")
                      (u "user@s.whatsapp.net") (elapse 3540000 afterAgenda)))
     = [ ChatCompletion (headlinesPrompt agendaEnv) 1000;
         ChatCompletion (selectionPrompt agendaEnv 3 (u "3. Gamma")) 4000 ].
Proof.
  assert (Hr : usable (fst (callHeadlinesAPI agendaEnv (emptyWorld 1000)))
               = Some agendaResponse) by reflexivity.
  split.
  - destruct (C5_headline_session_expiry agendaEnv (emptyWorld 1000) (u "MSG1")
                (u "MSG2") (u "user@s.whatsapp.net") agendaResponse 3 3900000 Hr)
      as (H65 & _ & _).
    apply H65. lia.
  - destruct (C5_headline_session_expiry agendaEnv (emptyWorld 1000) (u "MSG1")
                (u "MSG2") (u "user@s.whatsapp.net") agendaResponse 3 3540000 Hr)
      as (_ & _ & H59).
    destruct H59 as (selected & Hsel & Hq & Hs); [lia|vm_compute; split; discriminate|].
    assert (selected = u "3. Gamma") as ->
      by (vm_compute in Hsel; injection Hsel as <-; reflexivity).
    fold afterAgenda in Hq, Hs. rewrite Hq, Hs. split; reflexivity.
Defined.

(** ** Audio of several chunks *)

Section Synthesis.
Variable E : Env.
Variable voiceId : VoiceId.

Lemma generateSingleAudioChunk_run (text : str) (chunkNumber : option nat)
    (w : World) :
  generateSingleAudioChunk E text voiceId chunkNumber w
  = match speech E (length (requests w)) voiceId (clip text) with
    | None =>
        (None,
         {| clock := clock w; currentHeadlines := currentHeadlines w;
            sent := sent w;
            requests := requests w ++ [TextToSpeech voiceId (clip text)];
            files := files w |})
    | Some data =>
        let audioPath :=
          {| created := clock w;
             suffix := match chunkNumber with
                       | Some (S n) => ChunkSuffix (S n)
                       | _ => NoSuffix
                       end |} in
        (Some audioPath,
         {| clock := clock w; currentHeadlines := currentHeadlines w;
            sent := sent w;
            requests := requests w ++ [TextToSpeech voiceId (clip text)];
            files := fun q => if decide (q = audioPath) then Some data
                              else files w q |})
    end.
Proof.
  unfold generateSingleAudioChunk, bind, request.
  destruct (speech E _ _ _); reflexivity.
Qed.

Lemma hold_snoc fs paths buffers p data :
  hold fs paths buffers -> Forall (fun q => q <> p) paths ->
  hold (fun q => if decide (q = p) then Some data else fs q)
       (paths ++ [p]) (buffers ++ [data]).
Proof.
  intros Hh Hne. apply Forall2_app.
  - revert Hne. induction Hh as [|q b paths buffers Hq _ IH]; intros Hne;
      constructor; inversion Hne; subst.
    + destruct (decide (q = p)); [congruence|exact Hq].
    + apply IH. assumption.
  - constructor; [|constructor]. destruct (decide (p = p)); congruence.
Qed.

(** The loop leaves one file per successful chunk, in the order of the
    chunks, after the files it started with. *)
Lemma synthesizeChunks_run (chunks : list str) :
  forall i paths buffers w,
    hold (files w) paths buffers ->
    Forall (chunkFileUpTo i) paths ->
    exists paths' w',
      synthesizeChunks E voiceId chunks i paths w = (paths', w')
      /\ hold (files w') paths'
           (buffers
            ++ successes
                 (synthesisOutcomes E voiceId (length (requests w)) chunks))
      /\ Forall (fun p => exists n, suffix p = ChunkSuffix n) paths'.
Proof.
  induction chunks as [|chunk rest IH]; intros i paths buffers w Hh Hup.
  - exists paths, w. cbn [synthesizeChunks synthesisOutcomes successes].
    rewrite app_nil_r. repeat split; auto.
    eapply List.Forall_impl; [|exact Hup]. intros p (n & Hn & _). eauto.
  - cbn [synthesizeChunks synthesisOutcomes successes]. unfold bind at 1.
    rewrite generateSingleAudioChunk_run, Nat.add_1_r.
    destruct (speech E (length (requests w)) voiceId (clip chunk))
      as [data|] eqn:Hsp.
    + cbv zeta. set (p := {| created := clock w; suffix := ChunkSuffix (S i) |}).
      assert (Hne : Forall (fun q => q <> p) paths).
      { eapply List.Forall_impl; [|exact Hup]. intros q (n & Hn & Hle) ->.
        simpl in Hn. injection Hn as <-. lia. }
      pose proof (hold_snoc _ _ _ p data Hh Hne) as Hh1.
      assert (Hup1 : Forall (chunkFileUpTo (S i)) (paths ++ [p])).
      { apply Forall_app. split.
        - eapply List.Forall_impl; [|exact Hup]. intros q (n & Hn & Hle).
          exists n. split; [exact Hn|lia].
        - constructor; [|constructor]. exists (S i). split; [reflexivity|lia]. }
      unfold bind.
      destruct rest as [|chunk' rest'].
      * cbn [ret].
        match goal with |- context [synthesizeChunks _ _ [] _ _ ?w1] =>
          destruct (IH (S i) (paths ++ [p]) (buffers ++ [data]) w1 Hh1 Hup1)
            as (paths' & w' & Hrun & Hh' & Hs') end.
        exists paths', w'. rewrite Hrun. split; [reflexivity|].
        split; [|exact Hs'].
        cbn [requests] in Hh'. rewrite length_app in Hh'. cbn [length] in Hh'.
        rewrite Nat.add_1_r, <- app_assoc in Hh'. exact Hh'.
      * cbn [sleep].
        match goal with |- context [synthesizeChunks _ _ (chunk' :: rest') _ _ ?w1] =>
          destruct (IH (S i) (paths ++ [p]) (buffers ++ [data]) w1 Hh1 Hup1)
            as (paths' & w' & Hrun & Hh' & Hs') end.
        exists paths', w'. rewrite Hrun. split; [reflexivity|].
        split; [|exact Hs'].
        cbn [requests] in Hh'. rewrite length_app in Hh'. cbn [length] in Hh'.
        rewrite Nat.add_1_r, <- app_assoc in Hh'. exact Hh'.
    + assert (Hup1 : Forall (chunkFileUpTo (S i)) paths).
      { eapply List.Forall_impl; [|exact Hup]. intros q (n & Hn & Hle).
        exists n. split; [exact Hn|lia]. }
      unfold bind.
      destruct rest as [|chunk' rest'].
      * cbn [ret].
        match goal with |- context [synthesizeChunks _ _ [] _ _ ?w1] =>
          destruct (IH (S i) paths buffers w1 Hh Hup1)
            as (paths' & w' & Hrun & Hh' & Hs') end.
        exists paths', w'. rewrite Hrun. split; [reflexivity|].
        split; [|exact Hs'].
        cbn [requests] in Hh'. rewrite length_app in Hh'. cbn [length] in Hh'.
        rewrite Nat.add_1_r in Hh'. exact Hh'.
      * cbn [sleep].
        match goal with |- context [synthesizeChunks _ _ (chunk' :: rest') _ _ ?w1] =>
          destruct (IH (S i) paths buffers w1 Hh Hup1)
            as (paths' & w' & Hrun & Hh' & Hs') end.
        exists paths', w'. rewrite Hrun. split; [reflexivity|].
        split; [|exact Hs'].
        cbn [requests] in Hh'. rewrite length_app in Hh'. cbn [length] in Hh'.
        rewrite Nat.add_1_r in Hh'. exact Hh'.
Qed.

Lemma readFiles_run (paths : list Path) (buffers : list (list N)) (w : World) :
  hold (files w) paths buffers -> readFiles paths w = (Some buffers, w).
Proof.
  induction 1 as [|p b paths buffers Hp _ IH]; cbn [readFiles].
  - reflexivity.
  - unfold bind, readFile. rewrite Hp, IH. reflexivity.
Qed.

Lemma unlinkAll_other (paths : list Path) (q : Path) :
  Forall (fun p => p <> q) paths ->
  forall w, files (snd (unlinkAll paths w)) q = files w q.
Proof.
  induction 1 as [|p paths Hp _ IH]; intros w; cbn [unlinkAll].
  - reflexivity.
  - unfold bind. cbn [unlink setFiles]. rewrite IH. cbn [files].
    destruct (decide (q = p)); [congruence|reflexivity].
Qed.
End Synthesis.

Lemma hold_length fs paths buffers :
  hold fs paths buffers -> length paths = length buffers.
Proof. induction 1; simpl; congruence. Qed.

(** C8. In a job of several chunks (the chunker does not return a single
    chunk of at most 5000 characters), a chunk whose synthesis fails is
    skipped: the job ends without audio exactly when no chunk succeeds, and
    otherwise the file it returns holds the audio of the successful chunks,
    concatenated in the order of the chunks.  With the default voice, a job
    without audio makes [processVoiceOnly] reply with the failure text. *)
Theorem C8_partial_audio (E : Env) (script : str) (voiceId : VoiceId)
    (w : World) :
  script <> [] ->
  isSingle (splitScriptIntoChunks script) = false ->
  let audio :=
    successes (synthesisOutcomes E voiceId (length (requests w))
                 (splitScriptIntoChunks script)) in
  (fst (generateAudioWithVoice E script voiceId w) = None <-> audio = [])
  /\ (forall p,
        fst (generateAudioWithVoice E script voiceId w) = Some p ->
        files (snd (generateAudioWithVoice E script voiceId w)) p
        = Some (List.concat audio))
  /\ (voiceId = VoiceIdString (ELEVENLABS_VOICE_ID E) -> audio = [] ->
      forall messageId remoteJid,
        sent (snd (processVoiceOnly E script messageId remoteJid w))
        = sent w ++ [TextDelivery remoteJid (failed "generate voice")]).
Proof.
  intros Hscript Hmulti audio.
  assert (Hrun :
    (fst (generateAudioWithVoice E script voiceId w) = None <-> audio = [])
    /\ (forall p,
          fst (generateAudioWithVoice E script voiceId w) = Some p ->
          files (snd (generateAudioWithVoice E script voiceId w)) p
          = Some (List.concat audio))).
  { destruct (generateAudioWithVoice E script voiceId w) as [r w'] eqn:Hgen.
    cbn [fst snd]. unfold generateAudioWithVoice in Hgen.
    destruct script as [|c0 s0]; [congruence|].
    cbn [truthy negb] in Hgen. cbv zeta in Hgen.
    rewrite Hmulti in Hgen. unfold bind at 1 in Hgen.
    destruct (synthesizeChunks_run E voiceId
                (splitScriptIntoChunks (c0 :: s0)) 0 [] [] w)
      as (paths & w1 & Hloop & Hh & Hs); [constructor|constructor|].
    rewrite Hloop in Hgen.
    cbn [app] in Hh. fold audio in Hh. clearbody audio.
    pose proof (hold_length _ _ _ Hh) as Hlen.
    destruct paths as [|p0 paths0]; cbn [isEmpty] in Hgen.
    - destruct audio; [|simpl in Hlen; discriminate].
      injection Hgen as <- <-. split; [tauto|]. intros p Hp. discriminate.
    - assert (Hne : audio <> [])
        by (destruct audio; [simpl in Hlen; discriminate|congruence]).
      unfold bind, combineAudioChunks, bind, now in Hgen.
      rewrite (readFiles_run _ _ _ Hh) in Hgen.
      cbn [writeFile setFiles ret] in Hgen.
      set (combined := {| created := clock w1; suffix := CombinedSuffix |}) in *.
      match type of Hgen with context [unlinkAll ?ps ?w2] =>
        pose proof (unlinkAll_other ps combined) as Hkeep;
        specialize (fun H => Hkeep H w2);
        destruct (unlinkAll ps w2) as [[] w3] end.
      cbn [fst snd files] in *. injection Hgen as <- <-. split.
      + split; [discriminate|tauto].
      + intros p Hp. injection Hp as <-. rewrite Hkeep.
        * destruct (decide (combined = combined)); congruence.
        * eapply List.Forall_impl; [|exact Hs].
          intros q (n & Hn) ->. discriminate. }
  destruct Hrun as [Hnone Hfile]. split; [exact Hnone|split; [exact Hfile|]].
  intros -> Hno messageId remoteJid.
  unfold processVoiceOnly, generateAudio, bind.
  pose proof (sent_generateAudioWithVoice E script
                (VoiceIdString (ELEVENLABS_VOICE_ID E)) w) as Hsent.
  apply Hnone in Hno.
  destruct (generateAudioWithVoice E script _ w) as [r w1].
  cbn [fst snd] in *. subst r. cbn [sendMessage snd sent]. rewrite Hsent.
  reflexivity.
Qed.

(** Two chunks, the first fails: the job returns the audio of the second. *)
Lemma C8_first_chunk_fails :
  fst (generateAudioWithVoice flakyEnv twoChunkScript
         (VoiceIdString (u "XCkZqFlln3hpafGy0oM8")) (emptyWorld 0))
  = Some {| created := 1000; suffix := CombinedSuffix |}
  /\ files (snd (generateAudioWithVoice flakyEnv twoChunkScript
                   (VoiceIdString (u "XCkZqFlln3hpafGy0oM8")) (emptyWorld 0)))
       {| created := 1000; suffix := CombinedSuffix |}
     = Some [1; 2; 3]%N.
Proof.
  assert (Hr : fst (generateAudioWithVoice flakyEnv twoChunkScript
                      (VoiceIdString (u "XCkZqFlln3hpafGy0oM8")) (emptyWorld 0))
               = Some {| created := 1000; suffix := CombinedSuffix |})
    by (vm_compute; reflexivity).
  split; [exact Hr|].
  destruct (C8_partial_audio flakyEnv twoChunkScript
              (VoiceIdString (u "XCkZqFlln3hpafGy0oM8")) (emptyWorld 0))
    as (_ & Hfile & _).
  - vm_compute. discriminate.
  - vm_compute. reflexivity.
  - rewrite (Hfile _ Hr). vm_compute. reflexivity.
Defined.

(** ** A voice that is not found *)

(** A name that is neither in the table nor matched by a listed voice gets
    the default identifier, a non-empty string. *)
Lemma getVoiceId_unresolved (E : Env) (voiceName : str) (w : World) :
  lookupVoice (trim (toLowerCase E voiceName)) = None ->
  match voices E (length (requests w)) with
  | None => True
  | Some vs =>
      List.find (fun v => includes (toLowerCase E (fst v))
                                   (trim (toLowerCase E voiceName))) vs = None
  end ->
  getVoiceId E voiceName w
  = (defaultVoice,
     {| clock := clock w; currentHeadlines := currentHeadlines w;
        sent := sent w; requests := requests w ++ [ListVoices];
        files := files w |}).
Proof.
  intros Htable Hlist. unfold getVoiceId. cbv zeta. rewrite Htable.
  unfold bind, request.
  destruct (voices E (length (requests w))) as [vs|]; [|reflexivity].
  rewrite Hlist. reflexivity.
Qed.

(** For such a name the reply that the voice was not found is not sent:
    the one message is the audio or a failure text. *)
Lemma unresolved_voice_no_notice (E : Env)
    (content voiceName messageId remoteJid : str) (w : World) :
  lookupVoice (trim (toLowerCase E voiceName)) = None ->
  match voices E (length (requests w)) with
  | None => True
  | Some vs =>
      List.find (fun v => includes (toLowerCase E (fst v))
                                   (trim (toLowerCase E voiceName))) vs = None
  end ->
  exists d,
    sent (snd (processVoiceWithPerson E content voiceName messageId remoteJid w))
    = sent w ++ [d]
    /\ d <> TextDelivery remoteJid (voiceNotFound voiceName).
Proof.
  intros Htable Hlist. unfold processVoiceWithPerson. unfold bind at 1.
  rewrite (getVoiceId_unresolved E voiceName w Htable Hlist).
  cbn [defaultVoice voiceTruthy negb]. change (truthy (u _)) with true.
  cbn [negb]. unfold bind at 1.
  match goal with |- context [generateAudioWithVoice E content ?v ?w1] =>
    pose proof (sent_generateAudioWithVoice E content v w1) as Hsent;
    destruct (generateAudioWithVoice E content v w1) as [audioPath w2] end.
  cbn [snd sent] in Hsent.
  destruct audioPath as [p|].
  - unfold bind, readFile. destruct (files w2 p) as [b|].
    + eexists. cbn [sendMessage snd sent]. rewrite Hsent.
      split; [reflexivity|discriminate].
    + eexists. cbn [sendMessage snd sent]. rewrite Hsent.
      split; [reflexivity|]. intros H. injection H as H.
      vm_compute in H. discriminate.
  - eexists. cbn [sendMessage snd sent]. rewrite Hsent.
    split; [reflexivity|]. intros H. injection H as H.
    vm_compute in H. discriminate.
Qed.

(** C9. The voice [zzz] is not in the table and the service lists no voice
    of that name: the audio is synthesized with the default voice and is the
    only message sent; the reply that the voice was not found is not
    sent. *)
Theorem C9_unknown_voice_no_notice :
  lookupVoice (trim (toLowerCase oneVoiceEnv (u "zzz"))) = None
  /\ requests (snd (processVoiceWithPerson oneVoiceEnv (u "hello") (u "zzz")
                      (u "MSG1") (u "user@s.whatsapp.net") (emptyWorld 0)))
     = [ListVoices; TextToSpeech defaultVoice (u "hello")]
  /\ sent (snd (processVoiceWithPerson oneVoiceEnv (u "hello") (u "zzz")
                  (u "MSG1") (u "user@s.whatsapp.net") (emptyWorld 0)))
     = [AudioDelivery (u "user@s.whatsapp.net") (AudioBuffer [1; 2; 3]%N) true].
Proof. vm_compute. repeat split; reflexivity. Qed.

(** A selection on a channel whose session is an hour old leaves the store
    as it is. *)
Lemma C10_expired_entry_stays :
  currentHeadlines
    (snd (handleCommand agendaEnv (Number 3) (u "MSG2")
            (u "user@s.whatsapp.net") (elapse 3900000 afterAgenda)))
  = currentHeadlines (elapse 3900000 afterAgenda).
Proof.
  destruct (C10_selection_leaves_store agendaEnv) as (_ & Hcommand & _).
  apply Hcommand. discriminate.
Defined.

(* ================================================================== *)
(** * Further properties of the program *)

(** ** parseCommand on each of its patterns *)

Lemma matchKeyword_shape (keyword kw w rest : str) :
  Forall2 (fun a c => ci a c = true) keyword kw ->
  allWs w -> rest <> [] ->
  exists g,
    matchKeyword keyword (kw ++ w ++ colon :: rest) = Some g
    /\ trim g = trim rest.
Proof.
  intros Hkw Hw Hrest.
  destruct (command_tail (fun g => g) rest Hrest) as (g & Hg & Ht).
  exists g. split; [|exact Ht].
  unfold matchKeyword. rewrite (lit_match ci _ kw _ _ Hkw).
  apply star_greedy; [exact Hw|exact isWhiteSpace_colon|].
  unfold chr. change (colon =? colon)%N with true. exact Hg.
Qed.

(** A literal fails on an input whose first character is another letter. *)
Lemma lit_first_differs {A} (p a c : N) (w s : str) (k : str -> option A) :
  ci a c = true -> asciiUpper a <> asciiUpper p ->
  lit ci (p :: w) k (c :: s) = None.
Proof.
  intros Ha Hne. cbn [lit chr]. rewrite (ci_other a p c Ha Hne). reflexivity.
Qed.

Lemma Forall2_ci_head (a : N) (w kw : str) :
  Forall2 (fun a c => ci a c = true) (a :: w) kw ->
  exists c kw', kw = c :: kw' /\ ci a c = true.
Proof. intros H. inversion H; subst. eauto. Qed.

(** X1. A message that, once trimmed, is [topic], [script] or [visuals] in
    any case, optional whitespace, a colon and a non-empty rest is the
    command of that keyword with the rest trimmed as its content. *)
Theorem parse_keyword_commands (messageText kw w rest : str) :
  trim messageText = kw ++ w ++ colon :: rest ->
  allWs w -> rest <> [] ->
  (Forall2 (fun a c => ci a c = true) (u "topic") kw ->
   parseCommand messageText = Some (Topic (trim rest)))
  /\ (Forall2 (fun a c => ci a c = true) (u "script") kw ->
      parseCommand messageText = Some (Script (trim rest)))
  /\ (Forall2 (fun a c => ci a c = true) (u "visuals") kw ->
      parseCommand messageText = Some (Visuals (trim rest))).
Proof.
  intros Htext Hw Hrest. unfold parseCommand. cbv zeta. rewrite Htext.
  split; [|split]; intros Hkw.
  - destruct (matchKeyword_shape _ kw w rest Hkw Hw Hrest) as (g & -> & ->).
    reflexivity.
  - destruct (matchKeyword_shape _ kw w rest Hkw Hw Hrest) as (g & Hg & Ht).
    change (u "script") with (115%N :: u "cript") in Hkw.
    destruct (Forall2_ci_head _ _ _ Hkw) as (c & kw' & -> & Hc).
    assert (Htopic : matchKeyword (u "topic") ((c :: kw') ++ w ++ colon :: rest)
                     = None).
    { unfold matchKeyword. change (u "topic") with (116%N :: u "opic").
      apply (lit_first_differs _ 115%N); [exact Hc|vm_compute; discriminate]. }
    rewrite Htopic, Hg, Ht. reflexivity.
  - destruct (matchKeyword_shape _ kw w rest Hkw Hw Hrest) as (g & Hg & Ht).
    change (u "visuals") with (118%N :: u "isuals") in Hkw.
    destruct (Forall2_ci_head _ _ _ Hkw) as (c & kw' & -> & Hc).
    assert (Htopic : matchKeyword (u "topic") ((c :: kw') ++ w ++ colon :: rest)
                     = None).
    { unfold matchKeyword. change (u "topic") with (116%N :: u "opic").
      apply (lit_first_differs _ 118%N); [exact Hc|vm_compute; discriminate]. }
    assert (Hscript : matchKeyword (u "script") ((c :: kw') ++ w ++ colon :: rest)
                      = None).
    { unfold matchKeyword. change (u "script") with (115%N :: u "cript").
      apply (lit_first_differs _ 118%N); [exact Hc|vm_compute; discriminate]. }
    rewrite Htopic, Hscript, Hg, Ht. reflexivity.
Qed.

(** A script command with spaces around the colon and around the message. *)
Lemma parse_script_spaced :
  parseCommand (u "  Script :  UN meeting  ") = Some (Script (u "UN meeting")).
Proof.
  destruct (parse_keyword_commands (u "  Script :  UN meeting  ") (u "Script")
              (u " ") (u "  UN meeting"))
    as (_ & Hscript & _).
  - vm_compute. reflexivity.
  - repeat constructor.
  - discriminate.
  - apply Hscript. repeat constructor.
Defined.

(** X2. With at most one whitespace character between [voice] and the
    colon, the message is the plain voice command: the person pattern needs
    whitespace and then a name character before the colon. *)
Theorem parse_plain_voice (messageText kw w rest : str) :
  trim messageText = kw ++ w ++ colon :: rest ->
  Forall2 (fun a c => ci a c = true) (u "voice") kw ->
  allWs w -> length w <= 1 -> rest <> [] ->
  parseCommand messageText = Some (Voice (trim rest)).
Proof.
  intros Htext Hkw Hw Hlen Hrest. unfold parseCommand. cbv zeta. rewrite Htext.
  destruct (earlier_patterns_fail kw (w ++ colon :: rest) Hkw) as (-> & -> & ->).
  assert (Hperson : matchVoicePerson (kw ++ w ++ colon :: rest) = None).
  { unfold matchVoicePerson. rewrite (lit_match ci _ kw _ _ Hkw).
    destruct w as [|c [|c' w']]; [| |simpl in Hlen; lia].
    - reflexivity.
    - inversion Hw as [|? ? Hc _]; subst. simpl. rewrite Hc. reflexivity. }
  rewrite Hperson.
  destruct (matchKeyword_shape _ kw w rest Hkw Hw Hrest) as (g & -> & ->).
  reflexivity.
Qed.

Lemma parse_voice_one_space :
  parseCommand (u "Voice : salam") = Some (Voice (u "salam")).
Proof.
  apply (parse_plain_voice (u "Voice : salam") (u "Voice") (u " ") (u " salam")).
  - vm_compute. reflexivity.
  - repeat constructor.
  - repeat constructor.
  - simpl. lia.
  - discriminate.
Defined.

(** ** Digits, agenda and text that is no command *)

Lemma ci_digit (p c : N) :
  isDigit c = true -> (65 <= asciiUpper p)%N -> ci p c = false.
Proof.
  unfold isDigit, ci. intros Hd Hp.
  apply andb_prop in Hd as [H1 H2]. apply N.leb_le in H1, H2.
  apply N.eqb_neq. unfold asciiUpper at 1.
  destruct (_ && _)%bool eqn:Hl; [|lia].
  apply andb_prop in Hl as [H3 _]. apply N.leb_le in H3. lia.
Qed.

(** The patterns that start with a letter fail on a first character that
    is none of [t], [s], [v], [a] in either case. *)
Lemma letter_patterns_fail (c : N) (s : str) :
  ci 116 c = false -> ci 115 c = false -> ci 118 c = false ->
  ci 97 c = false ->
  matchKeyword (u "topic") (c :: s) = None
  /\ matchKeyword (u "script") (c :: s) = None
  /\ matchKeyword (u "visuals") (c :: s) = None
  /\ matchVoicePerson (c :: s) = None
  /\ matchKeyword (u "voice") (c :: s) = None
  /\ matchAgenda (c :: s) = None.
Proof.
  intros Ht Hs Hv Ha. unfold matchKeyword, matchVoicePerson, matchAgenda.
  change (u "topic") with (116%N :: u "opic").
  change (u "script") with (115%N :: u "cript").
  change (u "visuals") with (118%N :: u "isuals").
  change (u "voice") with (118%N :: u "oice").
  change (u "agenda") with (97%N :: u "genda").
  cbn [lit chr]. rewrite Ht, Hs, Hv, Ha. repeat split; reflexivity.
Qed.

(** X3. A message that, once trimmed, is a string of decimal digits is a
    headline selection exactly when its value is between 1 and 10; otherwise
    it is no command. *)
Theorem parse_digits (messageText digits : str) :
  trim messageText = digits -> digits <> [] ->
  Forall (fun c => isDigit c = true) digits ->
  parseCommand messageText
  = if ((1 <=? parseInt digits) && (parseInt digits <=? 10))%Z
    then Some (Number (parseInt digits)) else None.
Proof.
  intros Htext Hne Hd. unfold parseCommand. cbv zeta. rewrite Htext.
  destruct digits as [|c s]; [congruence|].
  inversion Hd as [|? ? Hc Hs]; subst.
  destruct (letter_patterns_fail c s) as (-> & -> & -> & -> & -> & ->);
    try (apply ci_digit; [exact Hc|vm_compute; discriminate]).
  assert (Hnum : matchNumber (c :: s) = Some (c :: s)).
  { unfold matchNumber. rewrite <- (app_nil_r (c :: s)) at 1.
    apply capPlus_greedy; [exact Hd|exact I|reflexivity]. }
  rewrite Hnum. reflexivity.
Qed.

(** Eleven is out of the range, ten is in it. *)
Lemma parse_eleven_and_ten :
  parseCommand (u " 11 ") = None /\ parseCommand (u "10") = Some (Number 10).
Proof.
  split.
  - apply (parse_digits (u " 11 ") (u "11")).
    + vm_compute. reflexivity.
    + discriminate.
    + repeat constructor.
  - apply (parse_digits (u "10") (u "10")).
    + vm_compute. reflexivity.
    + discriminate.
    + repeat constructor.
Defined.

(** X4. A message that, once trimmed, is [agenda] in any case is the agenda
    command. *)
Theorem parse_agenda (messageText kw : str) :
  trim messageText = kw ->
  Forall2 (fun a c => ci a c = true) (u "agenda") kw ->
  parseCommand messageText = Some Agenda.
Proof.
  intros Htext Hkw. unfold parseCommand. cbv zeta. rewrite Htext.
  pose proof Hkw as Hkw0. change (u "agenda") with (97%N :: u "genda") in Hkw0.
  destruct (Forall2_ci_head _ _ _ Hkw0) as (c & kw' & -> & Hc).
  assert (Hm : matchAgenda (c :: kw') = Some tt).
  { unfold matchAgenda. rewrite <- (app_nil_r (c :: kw')).
    rewrite (lit_match ci _ _ _ _ Hkw). reflexivity. }
  unfold matchKeyword, matchVoicePerson.
  change (u "topic") with (116%N :: u "opic").
  change (u "script") with (115%N :: u "cript").
  change (u "visuals") with (118%N :: u "isuals").
  change (u "voice") with (118%N :: u "oice").
  cbn [lit chr].
  rewrite (ci_other 97 116 c Hc), (ci_other 97 115 c Hc), (ci_other 97 118 c Hc)
    by (vm_compute; discriminate).
  rewrite Hm. reflexivity.
Qed.

Lemma parse_agenda_capitals :
  parseCommand (u " AGENDA ") = Some Agenda.
Proof.
  apply (parse_agenda (u " AGENDA ") (u "AGENDA")).
  - vm_compute. reflexivity.
  - repeat constructor.
Defined.

(** X5. A message that is blank, or whose first character after trimming is
    neither a digit nor one of [t], [s], [v], [a] in either case, is no
    command. *)
Theorem parse_other_text (messageText : str) :
  match trim messageText with
  | [] => True
  | c :: _ =>
      isDigit c = false /\ ci 116 c = false /\ ci 115 c = false
      /\ ci 118 c = false /\ ci 97 c = false
  end ->
  parseCommand messageText = None.
Proof.
  intros H. unfold parseCommand. cbv zeta.
  destruct (trim messageText) as [|c s]; [reflexivity|].
  destruct H as (Hd & Ht & Hs & Hv & Ha).
  destruct (letter_patterns_fail c s Ht Hs Hv Ha) as (-> & -> & -> & -> & -> & ->).
  unfold matchNumber, capPlus. rewrite Hd. reflexivity.
Qed.

Lemma parse_greeting : parseCommand (u "hello there: 5") = None.
Proof.
  apply parse_other_text. vm_compute. repeat split; reflexivity.
Defined.

(** ** What a successful match has consumed *)

Section Inversion.
Context {A : Type}.

Lemma chr_inv (p : N -> bool) (k : str -> option A) (s : str) (r : A) :
  chr p k s = Some r -> exists c s', s = c :: s' /\ k s' = Some r.
Proof.
  destruct s as [|c s']; simpl; [discriminate|].
  destruct (p c); [eauto|discriminate].
Qed.

Lemma lit_inv (eqc : N -> N -> bool) (w : str) (k : str -> option A) :
  forall s r, lit eqc w k s = Some r ->
              exists a b, s = a ++ b /\ k b = Some r.
Proof.
  induction w as [|p w IH]; intros s r H; cbn [lit] in H.
  - exists [], s. auto.
  - apply chr_inv in H as (c & s' & -> & H).
    apply IH in H as (a & b & -> & H). exists (c :: a), b. auto.
Qed.

Lemma capStar_inv (p : N -> bool) (s : str) :
  forall (k : str -> str -> option A) r,
    capStar p k s = Some r -> exists g v, s = g ++ v /\ k g v = Some r.
Proof.
  induction s as [|c s IH]; intros k r H; cbn [capStar] in H.
  - exists [], []. auto.
  - destruct (p c).
    + destruct (capStar p (fun g => k (c :: g)) s) as [r'|] eqn:Hs.
      * injection H as <-. apply IH in Hs as (g & v & -> & Hk).
        exists (c :: g), v. auto.
      * exists [], (c :: s). auto.
    + exists [], (c :: s). auto.
Qed.

Lemma capPlus_inv (p : N -> bool) (k : str -> str -> option A) (s : str)
    (r : A) :
  capPlus p k s = Some r ->
  exists g v, s = g ++ v /\ g <> [] /\ k g v = Some r.
Proof.
  unfold capPlus. destruct s as [|c s]; [discriminate|].
  destruct (p c); [|discriminate]. intros H.
  apply capStar_inv in H as (g & v & -> & Hk).
  exists (c :: g), v. repeat split; [discriminate|exact Hk].
Qed.

Lemma eos_inv (r0 r : A) (s : str) : eos r0 s = Some r -> s = [] /\ r = r0.
Proof. destruct s; simpl; intros H; [injection H as <-; auto|discriminate]. Qed.
End Inversion.

(** The capture of a command pattern is a non-empty end of the text. *)
Lemma command_tail_inv {A} (f : str -> A) (s : str) (r : A) :
  star isWhiteSpace (capPlus anyChar (fun g => eos (f g))) s = Some r ->
  exists pre g, s = pre ++ g /\ g <> [] /\ r = f g.
Proof.
  intros H. apply star_inv in H as (w & v & -> & _ & H).
  apply capPlus_inv in H as (g & v' & -> & Hg & H).
  apply eos_inv in H as [-> ->]. exists w, g. rewrite app_nil_r. auto.
Qed.

Lemma matchKeyword_inv (keyword text g : str) :
  matchKeyword keyword text = Some g ->
  exists pre, text = pre ++ g /\ g <> [].
Proof.
  unfold matchKeyword. intros H.
  apply lit_inv in H as (a & b & -> & H).
  apply star_inv in H as (w & v & -> & _ & H).
  apply chr_inv in H as (c & s' & -> & H).
  apply (command_tail_inv (fun g => g)) in H as (pre & g' & -> & Hg & ->).
  exists (a ++ w ++ c :: pre). rewrite <- !app_assoc. auto.
Qed.

Lemma matchVoicePerson_inv (text g1 g2 : str) :
  matchVoicePerson text = Some (g1, g2) ->
  exists pre, text = pre ++ g2 /\ g2 <> [].
Proof.
  unfold matchVoicePerson, plus. intros H.
  apply lit_inv in H as (a & b & -> & H).
  apply chr_inv in H as (c & s' & -> & H).
  apply star_inv in H as (w & v & -> & _ & H).
  apply capPlus_inv in H as (n & v' & -> & _ & H).
  apply star_inv in H as (w2 & v2 & -> & _ & H).
  apply chr_inv in H as (c2 & s2 & -> & H).
  apply (command_tail_inv (fun g => (n, g))) in H as (pre & g' & -> & Hg & Heq).
  injection Heq as Hn Hg'. subst g1 g2.
  exists (a ++ c :: w ++ n ++ w2 ++ c2 :: pre).
  rewrite <- !app_assoc. simpl. rewrite <- !app_assoc. auto.
Qed.

(** The last character of a trimmed string is not whitespace. *)
Lemma trim_last (s a : str) (c : N) :
  trim s = a ++ [c] -> isWhiteSpace c = false.
Proof.
  unfold trim, trimEnd. intros H.
  apply (f_equal (@rev N)) in H. rewrite rev_involutive, rev_app_distr in H.
  pose proof (trimStart_stops (rev (trimStart s))) as Hs.
  rewrite H in Hs. exact Hs.
Qed.

(** A non-empty end of a trimmed string trims to a non-empty string. *)
Lemma trim_of_end (s pre g : str) :
  trim s = pre ++ g -> g <> [] -> trimmed (trim g).
Proof.
  intros Hs Hg. split; [|apply trim_idem].
  destruct (exists_last Hg) as (g' & c & ->).
  rewrite app_assoc in Hs. apply trim_last in Hs.
  intros Hnil. apply trim_nil_text in Hnil.
  rewrite nonWs_app in Hnil. apply app_eq_nil in Hnil as [_ Hc].
  unfold nonWs in Hc. simpl in Hc. rewrite Hs in Hc. discriminate.
Qed.

(** X6. Whatever the message, the content of a recognized command is not
    empty and has no whitespace at either end, and a headline selection has
    a number from 1 to 10. *)
Theorem parse_content_trimmed (messageText : str) (c : Command) :
  parseCommand messageText = Some c ->
  match c with
  | Number n => (1 <= n <= 10)%Z
  | Agenda => True
  | _ => exists s, commandContent c = Some s /\ trimmed s
  end.
Proof.
  unfold parseCommand. cbv zeta. intros H.
  destruct (matchKeyword (u "topic") _) as [g|] eqn:H1.
  { injection H as <-. apply matchKeyword_inv in H1 as (pre & Ht & Hg).
    eexists. split; [reflexivity|]. eapply trim_of_end; eauto. }
  destruct (matchKeyword (u "script") _) as [g|] eqn:H2.
  { injection H as <-. apply matchKeyword_inv in H2 as (pre & Ht & Hg).
    eexists. split; [reflexivity|]. eapply trim_of_end; eauto. }
  destruct (matchKeyword (u "visuals") _) as [g|] eqn:H3.
  { injection H as <-. apply matchKeyword_inv in H3 as (pre & Ht & Hg).
    eexists. split; [reflexivity|]. eapply trim_of_end; eauto. }
  destruct (matchVoicePerson _) as [[g1 g2]|] eqn:H4.
  { injection H as <-. apply matchVoicePerson_inv in H4 as (pre & Ht & Hg).
    eexists. split; [reflexivity|]. eapply trim_of_end; eauto. }
  destruct (matchKeyword (u "voice") _) as [g|] eqn:H5.
  { injection H as <-. apply matchKeyword_inv in H5 as (pre & Ht & Hg).
    eexists. split; [reflexivity|]. eapply trim_of_end; eauto. }
  destruct (matchAgenda _); [injection H as <-; exact I|].
  destruct (matchNumber _) as [g|]; [|discriminate].
  destruct (_ && _)%bool eqn:Hr; [|discriminate].
  injection H as <-. apply andb_prop in Hr as [Ha Hb].
  apply Z.leb_le in Ha, Hb. lia.
Qed.

Lemma parse_content_of_topic :
  exists s, commandContent (Topic (u "floods in Punjab")) = Some s /\ trimmed s.
Proof.
  apply (parse_content_trimmed (u "topic:  floods in Punjab ")
           (Topic (u "floods in Punjab"))).
  vm_compute. reflexivity.
Defined.

(** ** The chunker on scripts without a blank line and on blank scripts *)

Lemma split_without_newline (s : str) :
  Forall (fun c => c <> newline) s ->
  forall prev, splitFrom paragraphBreak prev 0 s = [s].
Proof.
  induction 1 as [|c s Hc _ IH]; intros prev; [reflexivity|].
  cbn [splitFrom]. unfold paragraphBreak at 1. cbn [chr].
  destruct (N.eqb_spec newline c) as [Heq|_]; [congruence|].
  rewrite IH. reflexivity.
Qed.

(** X7. A script without any line feed that has some text leaves the
    chunker as exactly one chunk, the trimmed script, whatever its length
    and however many sentences it has. *)
Theorem chunks_without_newline (script : str) :
  Forall (fun c => c <> newline) script ->
  trim script <> [] ->
  splitScriptIntoChunks script = [trim script].
Proof.
  intros Hnl Htext. apply single_paragraph_one_chunk; [|exact Htext].
  unfold split. apply split_without_newline. exact Hnl.
Qed.

Lemma chunks_of_long_paragraph :
  splitScriptIntoChunks longParagraph = [trim longParagraph].
Proof.
  apply chunks_without_newline.
  - apply (Forall_of_forallb (fun c => negb (c =? newline)%N)).
    + intros x Hx ->. discriminate.
    + vm_compute. reflexivity.
  - vm_compute. discriminate.
Defined.

Lemma nonWs_concat_nil (l : list str) :
  nonWs (List.concat l) = [] -> Forall (fun p => trim p = []) l.
Proof.
  induction l as [|p l IH]; simpl; intros H; constructor.
  - rewrite nonWs_app in H. apply app_eq_nil in H as [Hp _].
    apply trim_allWs, nonWs_nil_allWs, Hp.
  - apply IH. rewrite nonWs_app in H. apply app_eq_nil in H as [_ Hl]. exact Hl.
Qed.

Lemma paragraphLoop_blank (paragraphs : list str) (st : list str * str) :
  Forall (fun p => trim p = []) paragraphs -> paragraphLoop paragraphs st = st.
Proof.
  induction 1 as [|p l Hp _ IH]; cbn [paragraphLoop]; [reflexivity|].
  cbv zeta. rewrite Hp. cbn [truthy negb]. exact IH.
Qed.

(** X8. A script of whitespace only does not come back as no chunk: up to
    1650 characters it is returned as it is, as one chunk of whitespace,
    and beyond that as one empty chunk. *)
Theorem chunks_of_blank_script (script : str) :
  script <> [] -> allWs script ->
  splitScriptIntoChunks script
  = if (maxChunkSize <? strlen script)%Z then [[]] else [script].
Proof.
  intros Hne Hws. unfold splitScriptIntoChunks.
  destruct script as [|c0 s0]; [congruence|]. cbn [truthy negb]. cbv zeta.
  assert (Hblank : Forall (fun p => trim p = [])
                     (split paragraphBreak (c0 :: s0))).
  { apply nonWs_concat_nil. rewrite split_paragraphs_text.
    apply nonWs_allWs, Hws. }
  rewrite (paragraphLoop_blank _ _ Hblank).
  change (pushRest ([], [])) with (@nil str). cbn [isEmpty andb].
  destruct (maxChunkSize <? strlen (c0 :: s0))%Z eqn:Hlong; [|reflexivity].
  rewrite (sentence_pass_allWs _ Hws).
  assert (Ht : (targetChunkSize <=? strlen (c0 :: s0))%Z = true).
  { apply Z.leb_le. apply Z.ltb_lt in Hlong.
    unfold targetChunkSize, maxChunkSize in *. lia. }
  rewrite Ht. reflexivity.
Qed.

Lemma chunks_of_three_spaces :
  splitScriptIntoChunks (u "   ") = [u "   "].
Proof.
  apply (chunks_of_blank_script (u "   ")).
  - discriminate.
  - repeat constructor.
Defined.

(** ** No chunk is empty when the script has text *)

Lemma trimmed_trim (s : str) : nonWs s <> [] -> trimmed (trim s).
Proof.
  intros H. split; [|apply trim_idem].
  intros Hnil. apply H, trim_nil_text, Hnil.
Qed.

Lemma truthy_trim_text (s : str) : truthy (trim s) = true -> nonWs s <> [].
Proof.
  intros Ht Hn. apply nonWs_nil_allWs, trim_allWs in Hn. rewrite Hn in Ht.
  discriminate.
Qed.

Lemma strlen_pos_ne (s : str) : (0 < strlen s)%Z -> s <> [].
Proof. intros H ->. unfold strlen in H. simpl in H. lia. Qed.

Lemma addParagraph_invariant (paragraph : str) (st : list str * str) :
  nonWs paragraph <> [] -> passInvariant st ->
  Forall trimmed (fst (addParagraph paragraph st))
  /\ nonWs (snd (addParagraph paragraph st)) <> [].
Proof.
  destruct st as [chunks cur]. intros Hp [Hc Hcur]. cbn [fst snd] in *.
  assert (Hjoin : nonWs (cur ++ blankLine ++ paragraph) <> []).
  { rewrite !nonWs_app. intros H. apply app_eq_nil in H as [_ H].
    apply app_eq_nil in H as [_ H]. auto. }
  unfold addParagraph.
  destruct (_ && _)%bool eqn:Hfull.
  - destruct (_ <=? _)%Z; cbn [fst snd]; [|auto].
    split; [|exact Hp]. apply Forall_app. split; [exact Hc|].
    constructor; [|constructor]. apply trimmed_trim.
    apply andb_prop in Hfull as [Hpos _]. apply Z.ltb_lt in Hpos.
    destruct Hcur as [->|Hcur]; [|exact Hcur].
    unfold strlen in Hpos. simpl in Hpos. lia.
  - destruct (_ =? _)%Z; cbn [fst snd]; auto.
Qed.

Lemma detectBoundary_invariant (more : bool) (st : list str * str) :
  Forall trimmed (fst st) -> nonWs (snd st) <> [] ->
  passInvariant (detectBoundary more st).
Proof.
  destruct st as [chunks cur]. cbn [fst snd]. intros Hc Hcur.
  unfold detectBoundary, passInvariant.
  unfold maxChunkSize, minChunkSize, targetChunkSize.
  destruct more.
  - rewrite !andb_true_r.
    destruct (1050 <=? strlen cur)%Z; cbn [fst snd]; [|auto].
    destruct (1200 <=? strlen cur)%Z eqn:Htarget; cbn [fst snd].
    + split; [|auto]. apply Forall_app. split; [exact Hc|].
      constructor; [|constructor]. apply trimmed_trim, Hcur.
    + apply Z.leb_gt in Htarget.
      destruct (1650 - 200 <=? strlen cur)%Z eqn:Hnear;
        [apply Z.leb_le in Hnear; lia|].
      cbn [fst snd]. auto.
  - rewrite !andb_false_r. destruct (1050 <=? strlen cur)%Z; cbn [fst snd]; auto.
Qed.

Lemma paragraphLoop_invariant (paragraphs : list str) :
  forall st, passInvariant st -> passInvariant (paragraphLoop paragraphs st).
Proof.
  induction paragraphs as [|raw rest IH]; intros st Hst; cbn [paragraphLoop];
    [exact Hst|].
  cbv zeta. destruct (truthy (trim raw)) eqn:Ht; cbn [negb]; [|apply IH, Hst].
  apply IH.
  destruct (addParagraph_invariant (trim raw) st) as [Hc Hcur]; [|exact Hst|].
  - rewrite nonWs_trim. apply truthy_trim_text, Ht.
  - apply detectBoundary_invariant; assumption.
Qed.

(** X9. When the script has some text, every chunk the chunker returns is
    non-empty and has no whitespace at either end. *)
Theorem chunks_are_trimmed (script : str) :
  nonWs script <> [] -> Forall trimmed (splitScriptIntoChunks script).
Proof.
  intros Htext. unfold splitScriptIntoChunks.
  destruct (truthy script) eqn:Hs; cbn [negb]; [|constructor].
  cbv zeta. pose proof (paragraph_pass_text script) as Hpass.
  assert (H0 : Forall trimmed
                 (pushRest (paragraphLoop (split paragraphBreak script) ([], [])))).
  { destruct (paragraphLoop_invariant (split paragraphBreak script) ([], []))
      as [Hc Hcur].
    - split; [constructor|left; reflexivity].
    - destruct (paragraphLoop _ _) as [chunks cur]. cbn [fst snd] in *.
      unfold pushRest. destruct (truthy (trim cur)) eqn:Ht; [|exact Hc].
      apply Forall_app. split; [exact Hc|]. constructor; [|constructor].
      apply trimmed_trim, truthy_trim_text, Ht. }
  set (chunks0 := pushRest _) in *.
  destruct chunks0 as [|c cs] eqn:Hc0.
  - simpl in Hpass. congruence.
  - cbn [isEmpty andb]. exact H0.
Qed.

Lemma chunks_of_two_paragraphs_trimmed :
  Forall trimmed (splitScriptIntoChunks twoParagraphs).
Proof.
  apply chunks_are_trimmed. vm_compute. discriminate.
Defined.

(** ** The distribution chunker: text and size *)

Lemma afterTextEnd_keeps :
  keeps (fun c => negb (isWhiteSpace c)) afterTextEnd.
Proof.
  intros prev s n caps H. unfold afterTextEnd in H.
  destruct prev as [p|]; [|discriminate].
  destruct (isTextEnd p); [|discriminate].
  unfold plus in H. destruct s as [|c s1]; [discriminate|]. cbn [chr] in H.
  destruct (isWhiteSpace c) eqn:Hc; [|discriminate].
  apply star_inv in H as (w & v & -> & Hw & Hk). injection Hk as <- <-.
  assert (Hn : consumed (c :: w ++ v) v = length (c :: w)).
  { unfold consumed. simpl. rewrite length_app. lia. }
  rewrite Hn. split.
  - simpl. rewrite length_app. lia.
  - change (c :: w ++ v) with ((c :: w) ++ v).
    rewrite firstn_app, Nat.sub_diag, firstn_all, firstn_O, app_nil_r.
    simpl List.concat. symmetry. apply nonWs_allWs. constructor; assumption.
Qed.

Lemma addSentence_text (maxSize : Z) (sentence : str) (st : list str * str) :
  textOf (addSentence maxSize sentence st) = textOf st ++ nonWs sentence.
Proof.
  destruct st as [chunks cur]. unfold addSentence.
  set (st1 := if (_ <? _)%Z then _ else _).
  assert (H1 : textOf st1 = textOf (chunks, cur)).
  { unfold st1. destruct (_ <? _)%Z; [|reflexivity].
    destruct cur as [|c cur]; [reflexivity|]. cbn [truthy].
    rewrite textOf_push, nonWs_trim. unfold textOf; cbn [fst snd].
    change (nonWs []) with (@nil N). rewrite app_nil_r. reflexivity. }
  destruct st1 as [chunks1 cur1]. rewrite <- H1.
  unfold textOf; cbn [fst snd]. rewrite !nonWs_app.
  change (nonWs [space]) with (@nil N).
  rewrite app_nil_r, <- app_assoc. reflexivity.
Qed.

Lemma chunkLoop_text (maxSize : Z) (sentences : list str) :
  forall st,
    textOf (chunkLoop maxSize sentences st)
    = textOf st ++ nonWs (List.concat sentences).
Proof.
  unfold chunkLoop.
  induction sentences as [|s rest IH]; intros st; cbn [fold_left List.concat].
  - change (nonWs []) with (@nil N). rewrite app_nil_r. reflexivity.
  - rewrite IH, addSentence_text, nonWs_app, <- app_assoc. reflexivity.
Qed.

Lemma chunkText_pass_text (text : str) (maxSize : Z) :
  List.concat
    (List.map nonWs
       (pushRest (chunkLoop maxSize (split afterTextEnd text) ([], []))))
  = nonWs text.
Proof.
  rewrite pushRest_text, chunkLoop_text. unfold textOf at 1.
  cbn [fst snd List.map List.concat app]. change (nonWs []) with (@nil N).
  cbn [app]. apply split_keeps, afterTextEnd_keeps.
Qed.

(** X10. The chunks of the distribution chunker carry the text of its
    input: their characters that are not whitespace, in the order of the
    chunks, are those of the input, for every input and every size. *)
Theorem chunkText_carries_the_text (text : str) (maxSize : Z) :
  List.concat (List.map nonWs (chunkText text maxSize)) = nonWs text.
Proof.
  unfold chunkText. cbv zeta.
  pose proof (chunkText_pass_text text maxSize) as H.
  destruct (pushRest _) as [|c cs]; cbn [isEmpty]; [|exact H].
  simpl. apply app_nil_r.
Qed.

Lemma isTextEnd_not_ws (c : N) :
  isWhiteSpace c = true -> isTextEnd c = false.
Proof.
  intros Hc. unfold isTextEnd.
  destruct (c =? 1748)%N eqn:H1;
    [apply N.eqb_eq in H1; subst; discriminate|].
  destruct (c =? 33)%N eqn:H2;
    [apply N.eqb_eq in H2; subst; discriminate|].
  destruct (c =? 63)%N eqn:H3;
    [apply N.eqb_eq in H3; subst; discriminate|].
  reflexivity.
Qed.

(** Whitespace alone has no sentence boundary. *)
Lemma split_text_allWs (s : str) :
  allWs s ->
  forall prev, noTextEndBefore prev -> splitFrom afterTextEnd prev 0 s = [s].
Proof.
  induction 1 as [|c s Hc _ IH]; intros prev Hprev; [reflexivity|].
  cbn [splitFrom].
  assert (Hm : afterTextEnd prev (c :: s) = None).
  { unfold afterTextEnd. destruct prev as [p|]; [|reflexivity].
    simpl in Hprev. rewrite Hprev. reflexivity. }
  rewrite Hm, IH; [reflexivity|]. simpl. apply isTextEnd_not_ws, Hc.
Qed.

Lemma strlen_nonneg (s : str) : (0 <= strlen s)%Z.
Proof. unfold strlen. lia. Qed.

Lemma addSentence_within (maxSize L : Z) (sentence : str)
    (st : list str * str) :
  (strlen sentence <= L)%Z ->
  loopWithin (Z.max maxSize L) st ->
  loopWithin (Z.max maxSize L) (addSentence maxSize sentence st).
Proof.
  destruct st as [chunks cur]. intros Hs [Hc Hcur]. cbn [fst snd] in *.
  pose proof (strlen_nonneg sentence) as Hpos.
  assert (Hnew : exists x, [] ++ sentence ++ [space] = x ++ [space]
                           /\ (strlen x <= Z.max maxSize L)%Z).
  { exists sentence. split; [reflexivity|lia]. }
  unfold addSentence, loopWithin.
  destruct (maxSize <? strlen cur + strlen sentence)%Z eqn:Hover.
  - destruct cur as [|c cur]; cbn [truthy fst snd]; [auto|].
    split; [|auto]. apply Forall_app. split; [exact Hc|].
    constructor; [|constructor].
    destruct Hcur as [Hcur|(x & -> & Hx)]; [discriminate|].
    rewrite (trim_app_ws x [space] allWs_space).
    pose proof (strlen_trim x). lia.
  - cbn [fst snd]. split; [exact Hc|]. right.
    exists (cur ++ sentence). split; [rewrite <- app_assoc; reflexivity|].
    apply Z.ltb_ge in Hover. rewrite strlen_app. lia.
Qed.

Lemma splitFrom_nonempty (sep : Separator) (s : str) :
  forall prev skip, splitFrom sep prev skip s <> [].
Proof.
  induction s as [|c s IH]; intros prev skip; cbn [splitFrom]; [discriminate|].
  destruct skip as [|k]; [|apply IH].
  destruct (sep prev (c :: s)) as [[[|n] caps]|]; try discriminate;
    destruct (splitFrom sep (Some c) 0 s); discriminate.
Qed.

Lemma chunkLoop_within (maxSize L : Z) (sentences : list str) :
  Forall (fun s => (strlen s <= L)%Z) sentences ->
  forall st,
    loopWithin (Z.max maxSize L) st ->
    loopWithin (Z.max maxSize L) (chunkLoop maxSize sentences st).
Proof.
  unfold chunkLoop.
  induction 1 as [|s rest Hs _ IH]; intros st Hst; cbn [fold_left];
    [exact Hst|].
  apply IH, addSentence_within; assumption.
Qed.

(** X11. When no sentence of the input has more than [L] characters, no
    chunk of the distribution chunker has more than [max maxSize L]: with
    sentences that fit, every chunk fits [maxSize]. *)
Theorem chunkText_size_bound (text : str) (maxSize L : Z) :
  Forall (fun s => (strlen s <= L)%Z) (split afterTextEnd text) ->
  Forall (fun c => (strlen c <= Z.max maxSize L)%Z) (chunkText text maxSize).
Proof.
  intros Hs. unfold chunkText. cbv zeta.
  pose proof (chunkText_pass_text text maxSize) as Htext.
  destruct (chunkLoop_within maxSize L _ Hs ([], [])) as [Hc Hcur].
  { split; [constructor|left; reflexivity]. }
  destruct (chunkLoop maxSize _ _) as [chunks cur]. cbn [fst snd] in *.
  assert (H0 : within (Z.max maxSize L) (pushRest (chunks, cur))).
  { unfold pushRest. destruct (truthy (trim cur)); [|exact Hc].
    apply Forall_app. split; [exact Hc|]. constructor; [|constructor].
    destruct Hcur as [->|(x & -> & Hx)].
    - change (strlen (trim [])) with 0%Z.
      destruct (split afterTextEnd text) as [|s0 ss] eqn:Hsp.
      + exfalso. exact (splitFrom_nonempty _ _ _ _ Hsp).
      + inversion Hs; subst. pose proof (strlen_nonneg s0). lia.
    - rewrite (trim_app_ws x [space] allWs_space).
      pose proof (strlen_trim x). lia. }
  destruct (pushRest (chunks, cur)) as [|c cs]; cbn [isEmpty]; [|exact H0].
  simpl in Htext. symmetry in Htext. apply nonWs_nil_allWs in Htext.
  unfold split in Hs. rewrite (split_text_allWs text Htext None I) in Hs.
  inversion Hs; subst. constructor; [lia|constructor].
Qed.

(** The two sentences of 2000 and 1999 characters fit 3500 each. *)
Lemma chunkText_two_sentences_fit :
  Forall (fun c => (strlen c <= 3500)%Z) (chunkText twoSentenceScript 3500).
Proof.
  apply (chunkText_size_bound twoSentenceScript 3500 2000).
  apply (Forall_of_forallb (fun s => (strlen s <=? 2000)%Z));
    [intros x; apply Z.leb_le|vm_compute; reflexivity].
Defined.

(** ** The extracted script *)

(** X12. The script extracted from a response has no whitespace at either
    end: trimming it again changes nothing, whether a title was found or the
    whole response was taken. *)
Theorem extract_is_trimmed (response : str) :
  trim (extractScriptAndVisuals response) = extractScriptAndVisuals response.
Proof.
  unfold extractScriptAndVisuals. cbv zeta.
  destruct (truthy (trim _)) eqn:Ht; apply trim_idem.
Qed.

Lemma asciiUpper_ws (c : N) : isWhiteSpace c = true -> asciiUpper c = c.
Proof.
  intros Hc. unfold asciiUpper.
  destruct (_ && _)%bool eqn:Hl; [|reflexivity].
  apply andb_prop in Hl as [H1 H2]. apply N.leb_le in H1, H2.
  unfold isWhiteSpace in Hc.
  rewrite !orb_true_iff, !andb_true_iff, !N.leb_le, !N.eqb_eq in Hc. lia.
Qed.

Lemma ci_ws (p c : N) :
  isWhiteSpace (asciiUpper p) = false -> isWhiteSpace c = true ->
  ci p c = false.
Proof.
  intros Hp Hc. unfold ci. rewrite (asciiUpper_ws c Hc).
  apply N.eqb_neq. intros ->. congruence.
Qed.

Section BlankSearch.
Context {A : Type}.

(** A pattern that starts with a character that is not whitespace is found
    nowhere in whitespace. *)
Lemma search_allWs (p : N) (w : str) (k : str -> option A) (s : str) :
  isWhiteSpace (asciiUpper p) = false -> allWs s ->
  search (lit ci (p :: w) k) s = None.
Proof.
  intros Hp. induction 1 as [|c s Hc _ IH]; cbn [search lit chr];
    [reflexivity|].
  rewrite (ci_ws p c Hp Hc). exact IH.
Qed.
End BlankSearch.

Lemma extract_blank (response : str) :
  allWs response -> extractScriptAndVisuals response = [].
Proof.
  intros Hws. unfold extractScriptAndVisuals, scriptPattern1, scriptPattern2,
    scriptPattern3.
  change memo with (55357%N :: [56541%N]).
  change (u "**Vision Point Script**") with (42%N :: u "*Vision Point Script**").
  change (u "Vision Point Script") with (86%N :: u "ision Point Script").
  rewrite !search_allWs by (assumption || reflexivity).
  cbv zeta. rewrite (trim_allWs response Hws). reflexivity.
Qed.

(** X13. A completion of whitespace only (a line feed, say) is usable as a
    string, but its script is empty: the editorial path then sends nothing,
    neither heading nor chunk nor reaction. *)
Theorem blank_completion_sends_nothing (E : Env) (editorial messageId : str)
    (w : World) (response : str) :
  usable (fst (callPerplexityAPI E editorial w)) = Some response ->
  allWs response ->
  extractScriptAndVisuals response = []
  /\ sent (snd (processEditorial E editorial messageId w)) = sent w.
Proof.
  intros Hr Hws. pose proof (extract_blank response Hws) as Hx.
  split; [exact Hx|]. unfold processEditorial, bind.
  rewrite callPerplexityAPI_run in *. cbn [fst] in Hr. rewrite Hr, Hx.
  reflexivity.
Qed.

Lemma line_feed_completion_sends_nothing :
  extractScriptAndVisuals [newline] = []
  /\ sent (snd (processEditorial
                  (exampleEnv (fun _ _ _ => Some [newline]) (fun _ _ _ => None)
                     (fun _ => None))
                  (u "floods in Punjab") (u "MSG1") (emptyWorld 0))) = [].
Proof.
  apply (blank_completion_sends_nothing
           (exampleEnv (fun _ _ _ => Some [newline]) (fun _ _ _ => None)
              (fun _ => None))
           (u "floods in Punjab") (u "MSG1") (emptyWorld 0) [newline]).
  - reflexivity.
  - repeat constructor.
Defined.

(** ** The editorial path for any script *)

Lemma sendChunks_clock (channel : str) (chunks : list str) :
  forall w,
    clock (snd (sendChunks channel chunks w))
    = (clock w + 1000 * Z.of_nat (length chunks))%Z.
Proof.
  induction chunks as [|c rest IH]; intros w; cbn [sendChunks].
  - simpl. lia.
  - unfold bind. cbn [sendMessage sleep]. rewrite IH. cbn [clock length]. lia.
Qed.

(** X14. On success of the editorial path with any script, the messages
    sent are the heading, one text per chunk of the distribution chunker in
    order, all to the script group, and last the reaction to the original
    message in the content group; the texts carry the whole script, one
    second is waited after each of them, and the completion is the only
    request. *)
Theorem editorial_success_deliveries (E : Env) (editorial messageId : str)
    (w : World) (response : str) :
  usable (fst (callPerplexityAPI E editorial w)) = Some response ->
  extractScriptAndVisuals response <> [] ->
  let chunks := chunkText (extractScriptAndVisuals response) 3500 in
  let w' := snd (processEditorial E editorial messageId w) in
  sent w'
  = sent w
    ++ [TextDelivery (demoScript (groupJIDs E)) (heading editorial)]
    ++ List.map (TextDelivery (demoScript (groupJIDs E))) chunks
    ++ [ReactionDelivery (content (groupJIDs E)) messageId [checkMark]]
  /\ List.concat (List.map nonWs chunks)
     = nonWs (extractScriptAndVisuals response)
  /\ clock w' = (clock w + 1000 * Z.of_nat (length chunks))%Z
  /\ requests w'
     = requests w ++ [ChatCompletion (editorialPrompt E editorial) 4000].
Proof.
  intros Hr Hscript chunks w'.
  destruct (processEditorial_success E editorial messageId w response Hr Hscript)
    as [Hs Hq].
  split; [exact Hs|]. split; [apply chunkText_carries_the_text|].
  split; [|exact Hq].
  unfold w', processEditorial, bind.
  rewrite callPerplexityAPI_run in *. cbn [fst] in Hr. rewrite Hr.
  destruct (extractScriptAndVisuals response) as [|c script] eqn:He;
    [congruence|].
  cbn [truthy negb]. unfold sendToWhatsAppGroups, bind.
  cbn [truthy sendMessage ret].
  match goal with |- context [sendChunks ?ch ?cs ?w1] =>
    pose proof (sendChunks_clock ch cs w1) as Hc;
    destruct (sendChunks ch cs w1) as [[] w2] end.
  cbn [snd clock] in *. unfold ret. cbn [sendMessage snd clock]. exact Hc.
Qed.

Lemma editorial_success_unbroken :
  sent (snd (processEditorial
               (exampleEnv (fun _ _ _ => Some unbrokenScript)
                  (fun _ _ _ => None) (fun _ => None))
               (u "floods in Punjab") (u "MSG1") (emptyWorld 0)))
  = [ TextDelivery (u "script@g.us") (heading (u "floods in Punjab"));
      TextDelivery (u "script@g.us") unbrokenScript;
      ReactionDelivery (u "content@g.us") (u "MSG1") [checkMark] ].
Proof.
  destruct (editorial_success_deliveries
              (exampleEnv (fun _ _ _ => Some unbrokenScript)
                 (fun _ _ _ => None) (fun _ => None))
              (u "floods in Punjab") (u "MSG1") (emptyWorld 0) unbrokenScript)
    as (Hs & _).
  - vm_compute. reflexivity.
  - vm_compute. discriminate.
  - rewrite Hs. vm_compute. reflexivity.
Defined.

(** ** The agenda and the selection *)

(** X15. A successful agenda stores, under the requesting channel and in
    place of whatever was there, the lines of the response that start with a
    number and a dot, in order and stamped with the clock; the sessions of
    the other channels stay, and the response is the one message sent. *)
Theorem agenda_stores_numbered_lines (E : Env) (messageId remoteJid : str)
    (w : World) (response : str) :
  usable (fst (callHeadlinesAPI E w)) = Some response ->
  let w' := snd (processAgenda E messageId remoteJid w) in
  let lines := List.filter isNumbered (split lineFeed response) in
  currentHeadlines w' !! remoteJid
  = Some {| headlines := lines; timestamp := clock w |}
  /\ (forall other, other <> remoteJid ->
                    currentHeadlines w' !! other = currentHeadlines w !! other)
  /\ Forall (fun line => isNumbered line = true) lines
  /\ sent w' = sent w ++ [TextDelivery remoteJid response].
Proof.
  intros Hr w' lines. unfold w'.
  rewrite (processAgenda_success E messageId remoteJid w response Hr).
  cbn [currentHeadlines sent]. split; [apply lookup_insert_eq|].
  split; [intros other Hne; apply lookup_insert_ne; congruence|].
  split; [|reflexivity].
  apply List.Forall_forall. intros line Hin.
  apply List.filter_In in Hin. tauto.
Qed.

Lemma agenda_example_lines :
  currentHeadlines afterAgenda !! u "user@s.whatsapp.net"
  = Some {| headlines := [u "1. Alpha"; u "2. Beta"; u "3. Gamma"];
            timestamp := 1000 |}.
Proof.
  destruct (agenda_stores_numbered_lines agendaEnv (u "MSG1")
              (u "user@s.whatsapp.net") (emptyWorld 1000) agendaResponse)
    as (Hstore & _).
  - reflexivity.
  - exact Hstore.
Defined.

(** X16. When the headlines request fails or answers with the empty string,
    the agenda replies with the failure text only and writes nothing: a
    session stored before stays as it was. *)
Theorem agenda_failure_keeps_session (E : Env) (messageId remoteJid : str)
    (w : World) :
  usable (fst (callHeadlinesAPI E w)) = None ->
  currentHeadlines (snd (processAgenda E messageId remoteJid w))
  = currentHeadlines w
  /\ sent (snd (processAgenda E messageId remoteJid w))
     = sent w ++ [TextDelivery remoteJid (failed "fetch headlines")].
Proof.
  intros Hr. unfold processAgenda, bind.
  unfold callHeadlinesAPI, request in *. cbn [fst] in Hr. rewrite Hr.
  split; reflexivity.
Qed.

Lemma agenda_failure_example :
  currentHeadlines
    (snd (processAgenda
            (exampleEnv (fun _ _ _ => None) (fun _ _ _ => None) (fun _ => None))
            (u "MSG3") (u "user@s.whatsapp.net") afterAgenda))
  = currentHeadlines afterAgenda.
Proof.
  apply (agenda_failure_keeps_session
           (exampleEnv (fun _ _ _ => None) (fun _ _ _ => None) (fun _ => None))
           (u "MSG3") (u "user@s.whatsapp.net") afterAgenda).
  reflexivity.
Defined.

(** X17. With a fresh session, a number below 1 or above the number of
    stored headlines is answered with the range of valid numbers and nothing
    else: no request is made.  This is so for every number when the agenda
    response had no numbered line. *)
Theorem selection_out_of_range (E : Env) (number : Z)
    (messageId remoteJid : str) (w : World) (session : HeadlineSession) :
  currentHeadlines w !! remoteJid = Some session ->
  (clock w - timestamp session <= 3600000)%Z ->
  (number < 1 \/ Z.of_nat (length (headlines session)) < number)%Z ->
  processHeadlineSelection E number messageId remoteJid w
  = sendMessage
      (TextDelivery remoteJid (invalidNumber (length (headlines session)))) w.
Proof.
  intros H Hfresh Hout. unfold processHeadlineSelection, bind, getHeadlines, now.
  rewrite H. apply Z.ltb_ge in Hfresh. rewrite Hfresh.
  assert (Hb : ((number <? 1)
                || (Z.of_nat (length (headlines session)) <? number))%Z = true).
  { apply orb_true_iff. destruct Hout; [left|right]; apply Z.ltb_lt; lia. }
  rewrite Hb. reflexivity.
Qed.

Lemma selection_of_fourth_headline :
  sent (snd (processHeadlineSelection agendaEnv 4 (u "MSG2")
               (u "user@s.whatsapp.net") (elapse 60000 afterAgenda)))
  = [ TextDelivery (u "user@s.whatsapp.net") agendaResponse;
      TextDelivery (u "user@s.whatsapp.net")
        (crossMark :: u " Invalid number. Please choose between 1-3.") ].
Proof.
  rewrite (selection_out_of_range agendaEnv 4 (u "MSG2")
             (u "user@s.whatsapp.net") (elapse 60000 afterAgenda)
             {| headlines := [u "1. Alpha"; u "2. Beta"; u "3. Gamma"];
                timestamp := 1000 |}).
  - vm_compute. reflexivity.
  - vm_compute. reflexivity.
  - vm_compute. discriminate.
  - right. vm_compute. reflexivity.
Defined.

(** X18. A later agenda on the same channel starts the hour again: however
    long after the first agenda, a selection at most one hour after the
    second one, with a number of its list, requests the script of that
    headline of the second list. *)
Theorem second_agenda_restarts_the_hour (E : Env) (w0 : World)
    (id1 id2 messageId remoteJid : str) (response1 response2 : str)
    (number d1 d2 : Z) :
  usable (fst (callHeadlinesAPI E w0)) = Some response1 ->
  let w1 := elapse d1 (snd (processAgenda E id1 remoteJid w0)) in
  usable (fst (callHeadlinesAPI E w1)) = Some response2 ->
  let w2 := elapse d2 (snd (processAgenda E id2 remoteJid w1)) in
  let list := List.filter isNumbered (split lineFeed response2) in
  (d2 <= 3600000)%Z ->
  (1 <= number <= Z.of_nat (length list))%Z ->
  exists selectedHeadline,
    list !! Z.to_nat (number - 1) = Some selectedHeadline
    /\ requests (snd (processHeadlineSelection E number messageId remoteJid w2))
       = requests w2
         ++ [ChatCompletion (selectionPrompt E number selectedHeadline) 4000].
Proof.
  intros Hr1 w1 Hr2 w2 list Hd Hn.
  assert (Hstore :
    currentHeadlines w2 !! remoteJid
    = Some {| headlines := list; timestamp := clock w1 |}).
  { unfold w2. rewrite (processAgenda_success E id2 remoteJid w1 response2 Hr2).
    unfold elapse. cbn [sleep snd currentHeadlines]. apply lookup_insert_eq. }
  assert (Hclock : clock w2 = (clock w1 + d2)%Z).
  { unfold w2. rewrite (processAgenda_success E id2 remoteJid w1 response2 Hr2).
    reflexivity. }
  destruct (selection_fresh E number messageId remoteJid w2 _ Hstore)
    as (selected & Hsel & Hq & _).
  - rewrite Hclock. cbn [timestamp]. lia.
  - exact Hn.
  - exists selected. split; assumption.
Qed.

(** Two hours after a first agenda a second one is run; 59 minutes later
    its second headline is selected. *)
Lemma second_agenda_example :
  exists selectedHeadline,
    List.filter isNumbered (split lineFeed secondResponse) !! 1
    = Some selectedHeadline
    /\ requests
         (snd (processHeadlineSelection twoAgendasEnv 2 (u "MSG3")
                 (u "user@s.whatsapp.net")
                 (elapse 3540000
                    (snd (processAgenda twoAgendasEnv (u "MSG2")
                            (u "user@s.whatsapp.net")
                            (elapse 7200000
                               (snd (processAgenda twoAgendasEnv (u "MSG1")
                                       (u "user@s.whatsapp.net")
                                       (emptyWorld 1000)))))))))
       = requests
           (elapse 3540000
              (snd (processAgenda twoAgendasEnv (u "MSG2")
                      (u "user@s.whatsapp.net")
                      (elapse 7200000
                         (snd (processAgenda twoAgendasEnv (u "MSG1")
                                 (u "user@s.whatsapp.net")
                                 (emptyWorld 1000)))))))
         ++ [ChatCompletion (selectionPrompt twoAgendasEnv 2 selectedHeadline)
               4000].
Proof.
  apply (second_agenda_restarts_the_hour twoAgendasEnv (emptyWorld 1000)
           (u "MSG1") (u "MSG2") (u "MSG3") (u "user@s.whatsapp.net")
           agendaResponse secondResponse 2 7200000 3540000).
  - reflexivity.
  - reflexivity.
  - lia.
  - vm_compute. split; discriminate.
Defined.

(** ** The number prefix of a headline *)





(** ** The voice identifier is never falsy *)

Lemma lookupVoice_truthy (name : str) (v : VoiceId) :
  lookupVoice name = Some v -> voiceTruthy v = true.
Proof.
  unfold lookupVoice. destruct (assoc name voiceMappings) as [id|] eqn:Ha.
  - intros [= <-]. unfold voiceMappings, assoc in Ha.
    repeat (destruct (decide _) in Ha; [injection Ha as <-; reflexivity|]).
    discriminate.
  - repeat (destruct (decide _); [intros [= <-]; reflexivity|]). discriminate.
Qed.

Lemma getVoiceId_result (E : Env) (voiceName : str) (w : World) :
  listedIdsNonEmpty E ->
  voiceTruthy (fst (getVoiceId E voiceName w)) = true
  /\ sent (snd (getVoiceId E voiceName w)) = sent w
  /\ (requests (snd (getVoiceId E voiceName w)) = requests w
      \/ requests (snd (getVoiceId E voiceName w)) = requests w ++ [ListVoices]).
Proof.
  intros Hids. unfold getVoiceId. cbv zeta.
  destruct (lookupVoice _) as [id|] eqn:Hl.
  - apply lookupVoice_truthy in Hl. cbn [ret fst snd]. auto.
  - unfold bind, request.
    destruct (voices E (length (requests w))) as [vs|] eqn:Hv;
      [|cbn [ret fst snd requests sent]; auto].
    destruct (List.find _ vs) as [voice|] eqn:Hf;
      [|cbn [ret fst snd requests sent]; auto].
    cbn [ret fst snd requests sent voiceTruthy]. split; [|auto].
    apply List.find_some in Hf as [Hin _].
    pose proof (Hids _ _ Hv) as Hall. rewrite List.Forall_forall in Hall.
    specialize (Hall _ Hin). destruct (snd voice); [congruence|reflexivity].
Qed.

(** X20. When the voices the service lists have non-empty identifiers, the
    identifier [getVoiceId] returns is truthy for every name, found or not,
    so for every person command exactly one message is sent (the audio or a
    failure text) and it is never the notice that the voice was not
    found. *)
Theorem voice_notice_never_sent (E : Env)
    (content voiceName messageId remoteJid : str) (w : World) :
  listedIdsNonEmpty E ->
  voiceTruthy (fst (getVoiceId E voiceName w)) = true
  /\ exists d,
       sent (snd (processVoiceWithPerson E content voiceName messageId
                    remoteJid w))
       = sent w ++ [d]
       /\ d <> TextDelivery remoteJid (voiceNotFound voiceName).
Proof.
  intros Hids.
  destruct (getVoiceId_result E voiceName w Hids) as (Ht & Hs & _).
  split; [exact Ht|].
  unfold processVoiceWithPerson. unfold bind at 1.
  destruct (getVoiceId E voiceName w) as [v w1]. cbn [fst snd] in *.
  rewrite Ht. cbn [negb]. unfold bind at 1.
  pose proof (sent_generateAudioWithVoice E content v w1) as Hsent.
  destruct (generateAudioWithVoice E content v w1) as [audioPath w2].
  cbn [snd] in Hsent. rewrite Hs in Hsent.
  destruct audioPath as [p|].
  - unfold bind, readFile. destruct (files w2 p) as [b|].
    + eexists. cbn [sendMessage snd sent]. rewrite Hsent.
      split; [reflexivity|discriminate].
    + eexists. cbn [sendMessage snd sent]. rewrite Hsent.
      split; [reflexivity|]. intros H. injection H as H.
      vm_compute in H. discriminate.
  - eexists. cbn [sendMessage snd sent]. rewrite Hsent.
    split; [reflexivity|]. intros H. injection H as H.
    vm_compute in H. discriminate.
Qed.

Lemma voice_notice_example :
  voiceTruthy (fst (getVoiceId oneVoiceEnv (u "Nobody") (emptyWorld 0))) = true
  /\ exists d,
       sent (snd (processVoiceWithPerson oneVoiceEnv (u "hello") (u "Nobody")
                    (u "MSG1") (u "user@s.whatsapp.net") (emptyWorld 0)))
       = sent (emptyWorld 0) ++ [d]
       /\ d <> TextDelivery (u "user@s.whatsapp.net")
                 (voiceNotFound (u "Nobody")).
Proof.
  apply (voice_notice_never_sent oneVoiceEnv (u "hello") (u "Nobody")
           (u "MSG1") (u "user@s.whatsapp.net") (emptyWorld 0)).
  intros n vs Hvs. injection Hvs as <-. repeat constructor. discriminate.
Defined.

(** ** The synthesis requests of a job *)

Lemma strlen_clip (text : str) : (strlen (clip text) <= 5000)%Z.
Proof.
  unfold clip. destruct (5000 <? strlen text)%Z eqn:H.
  - unfold substring0, strlen. rewrite length_firstn.
    pose proof (Nat.le_min_l 5000 (length text)) as Hm.
    apply Nat2Z.inj_le in Hm.
    change (Z.of_nat 5000) with 5000%Z in Hm. exact Hm.
  - apply Z.ltb_ge in H. exact H.
Qed.

Section JobRequests.
Variable E : Env.
Variable voiceId : VoiceId.

Lemma rc_writeFile p data : preserves requestsAndClock (writeFile p data).
Proof. intros w. reflexivity. Qed.

Lemma rc_unlink p : preserves requestsAndClock (unlink p).
Proof. intros w. reflexivity. Qed.

Lemma rc_readFiles paths : preserves requestsAndClock (readFiles paths).
Proof. induction paths; cbn [readFiles]; frame. Qed.

Lemma rc_unlinkAll paths : preserves requestsAndClock (unlinkAll paths).
Proof. pose proof rc_unlink. induction paths; cbn [unlinkAll]; frame. Qed.

Lemma rc_combineAudioChunks paths :
  preserves requestsAndClock (combineAudioChunks paths).
Proof.
  unfold combineAudioChunks. pose proof rc_readFiles. pose proof rc_writeFile.
  frame.
Qed.

(** The loop asks once per chunk, in order, and sleeps between two
    chunks. *)
Lemma synthesizeChunks_requests (chunks : list str) :
  forall i paths w,
    requestsAndClock (snd (synthesizeChunks E voiceId chunks i paths w))
    = (requests w
         ++ List.map (fun c => TextToSpeech voiceId (clip c)) chunks,
       (clock w + 1000 * Z.of_nat (pred (length chunks)))%Z).
Proof.
  induction chunks as [|chunk rest IH]; intros i paths w;
    cbn [synthesizeChunks List.map length pred].
  - unfold requestsAndClock. cbn [ret snd]. rewrite app_nil_r.
    f_equal. lia.
  - unfold bind at 1. rewrite generateSingleAudioChunk_run.
    destruct (speech E (length (requests w)) voiceId (clip chunk));
      cbv zeta; unfold bind; destruct rest as [|chunk' rest'];
      cbn [ret sleep]; rewrite IH; cbn [requests clock length pred List.map];
      rewrite <- ?app_assoc; cbn [app]; f_equal; lia.
Qed.

End JobRequests.

(** X21. For every script that is not empty, a job asks the speech service
    exactly once per chunk of the chunker, in the order of the chunks and
    whether or not earlier chunks failed, each time with the chunk cut to at
    most 5000 characters; between two requests it waits one second. *)
Theorem job_requests (E : Env) (voiceId : VoiceId) (script : str)
    (w : World) :
  script <> [] ->
  let chunks := splitScriptIntoChunks script in
  let w' := snd (generateAudioWithVoice E script voiceId w) in
  requests w'
  = requests w ++ List.map (fun c => TextToSpeech voiceId (clip c)) chunks
  /\ Forall (fun c => (strlen (clip c) <= 5000)%Z) chunks
  /\ clock w' = (clock w + 1000 * Z.of_nat (pred (length chunks)))%Z.
Proof.
  intros Hne chunks w'.
  assert (Hrc : requestsAndClock w'
                = (requests w
                     ++ List.map (fun c => TextToSpeech voiceId (clip c)) chunks,
                   (clock w + 1000 * Z.of_nat (pred (length chunks)))%Z)).
  { unfold w', generateAudioWithVoice.
    destruct script as [|c0 s0]; [congruence|]. cbn [truthy negb]. cbv zeta.
    fold chunks. destruct (isSingle chunks) eqn:Hsingle.
    - destruct chunks as [|c [|c' cs]]; try discriminate.
      cbn [List.hd]. rewrite generateSingleAudioChunk_run.
      destruct (speech E _ _ _); cbv zeta; unfold requestsAndClock;
        cbn [snd requests clock List.map length pred]; f_equal; lia.
    - unfold bind at 1.
      pose proof (synthesizeChunks_requests E voiceId chunks 0 [] w) as Hloop.
      destruct (synthesizeChunks E voiceId chunks 0 [] w) as [paths w1].
      cbn [snd] in Hloop. rewrite <- Hloop.
      destruct (isEmpty paths); [reflexivity|].
      unfold bind.
      pose proof (rc_combineAudioChunks paths w1) as Hcomb.
      destruct (combineAudioChunks paths w1) as [r w2]. cbn [snd] in Hcomb.
      pose proof (rc_unlinkAll paths w2) as Hun.
      destruct (unlinkAll paths w2) as [[] w3]. cbn [snd ret] in *.
      congruence. }
  unfold requestsAndClock in Hrc. injection Hrc as Hq Hc.
  split; [exact Hq|]. split; [|exact Hc].
  apply List.Forall_forall. intros c _. apply strlen_clip.
Qed.

Lemma job_requests_two_chunks :
  requests (snd (generateAudioWithVoice flakyEnv twoChunkScript defaultVoice
                   (emptyWorld 0)))
  = [ TextToSpeech defaultVoice (repeatStr 130 shortSentence);
      TextToSpeech defaultVoice (repeatStr 130 shortSentence) ]
  /\ clock (snd (generateAudioWithVoice flakyEnv twoChunkScript defaultVoice
                   (emptyWorld 0))) = 1000%Z.
Proof.
  destruct (job_requests flakyEnv defaultVoice twoChunkScript (emptyWorld 0))
    as (Hq & _ & Hc).
  - vm_compute. discriminate.
  - rewrite Hq, Hc. vm_compute. split; reflexivity.
Defined.

(** ** The interactive commands answer once, in place *)

Lemma repliesOnce_send (remoteJid : str) (d : Delivery) :
  channelOf d = remoteJid -> repliesOnce remoteJid (sendMessage d).
Proof. intros H w. exists d. split; [reflexivity|exact H]. Qed.

Lemma repliesOnce_after {A B} (remoteJid : str) (m : M A) (k : A -> M B) :
  preserves sent m -> (forall a, repliesOnce remoteJid (k a)) ->
  repliesOnce remoteJid (bind m k).
Proof.
  intros Hm Hk w. unfold bind. specialize (Hm w).
  destruct (m w) as [a w1]. cbn [snd] in Hm.
  destruct (Hk a w1) as (d & Hd & Hc). exists d. rewrite Hd, Hm. auto.
Qed.

Lemma sent_getHeadlines j : preserves sent (getHeadlines j).
Proof. intros w. reflexivity. Qed.

Lemma sent_setHeadlines j h : preserves sent (setHeadlines j h).
Proof. intros w. reflexivity. Qed.

Lemma sent_getVoiceId (E : Env) (voiceName : str) :
  preserves sent (getVoiceId E voiceName).
Proof. unfold getVoiceId. frame. Qed.

(** Walks through a handler that ends in one reply. *)
Ltac reply_once :=
  repeat first
    [ apply repliesOnce_send; reflexivity
    | apply repliesOnce_after;
        [solve [auto with frame | apply sent_generateAudioWithVoice
               | apply sent_getVoiceId | apply sent_setHeadlines
               | apply sent_getHeadlines]|intros]
    | match goal with
      | |- repliesOnce _ (match ?x with _ => _ end) => destruct x
      | |- repliesOnce _ (if ?b then _ else _) => destruct b
      end ].

(** X22. When the voices the service lists have non-empty identifiers,
    every command but [Topic] sends exactly one message and sends it to the
    chat of the command: the result or a failure text, whatever the services
    answer. *)
Theorem interactive_commands_reply_once (E : Env) (command : Command)
    (messageId remoteJid : str) (w : World) :
  listedIdsNonEmpty E ->
  (forall content, command <> Topic content) ->
  exists d,
    sent (snd (handleCommand E command messageId remoteJid w)) = sent w ++ [d]
    /\ channelOf d = remoteJid.
Proof.
  intros Hids Hcmd. revert w.
  change (repliesOnce remoteJid (handleCommand E command messageId remoteJid)).
  destruct command as [c|c|c|v c|c| |n]; cbn [handleCommand].
  - exfalso. exact (Hcmd c eq_refl).
  - unfold processScriptOnly, callPerplexityAPI. reply_once.
  - unfold processVisualsOnly, callVisualsAPI. reply_once.
  - intros w. destruct (getVoiceId_result E v w Hids) as (Ht & Hs & _).
    unfold processVoiceWithPerson. unfold bind at 1.
    destruct (getVoiceId E v w) as [vid w1]. cbn [fst snd] in *.
    rewrite Ht. cbn [negb]. rewrite <- Hs. revert w1 Hs. intros w1 _. revert w1.
    change (repliesOnce remoteJid
              (let* audioPath := generateAudioWithVoice E c vid in
               match audioPath with
               | Some p =>
                   let* audioBuffer := readFile p in
                   match audioBuffer with
                   | Some b =>
                       sendMessage (AudioDelivery remoteJid (AudioBuffer b) true)
                   | None =>
                       sendMessage
                         (TextDelivery remoteJid (errorGenerating "voice"))
                   end
               | None =>
                   sendMessage (TextDelivery remoteJid (failed "generate voice"))
               end)).
    reply_once.
  - unfold processVoiceOnly, generateAudio. reply_once.
  - unfold processAgenda, callHeadlinesAPI. reply_once.
  - unfold processHeadlineSelection, callPerplexityAPI. reply_once.
Qed.

Lemma script_command_replies_once :
  exists d,
    sent (snd (handleCommand agendaEnv (Script (u "UN meeting")) (u "MSG1")
                 (u "user@s.whatsapp.net") (emptyWorld 0)))
    = sent (emptyWorld 0) ++ [d]
    /\ channelOf d = u "user@s.whatsapp.net".
Proof.
  apply (interactive_commands_reply_once agendaEnv (Script (u "UN meeting"))
           (u "MSG1") (u "user@s.whatsapp.net") (emptyWorld 0)).
  - intros n vs Hvs. discriminate.
  - discriminate.
Defined.

(** ** Incoming messages *)

Lemma store_handleCommand (E : Env) (command : Command) (m j : str) :
  command <> Agenda ->
  preserves currentHeadlines (handleCommand E command m j).
Proof.
  intros Hc. destruct command; cbn [handleCommand]; try congruence.
  - apply store_processEditorial.
  - unfold processScriptOnly, callPerplexityAPI. frame.
  - unfold processVisualsOnly, callVisualsAPI. frame.
  - apply store_processVoiceWithPerson.
  - apply store_processVoiceOnly.
  - apply store_processHeadlineSelection.
Qed.

(** X23. An incoming event changes nothing (no message, no request, no
    write) when it carries no message, when the message is the bot's own,
    and, for a message without audio in the content group, when it has no
    text or a blank one, or when its text is no command and its chat is not
    the content group. *)
Theorem ignored_messages (E : Env)
    (handleVoiceMessage : Message -> str -> str -> M unit)
    (m : option Message) (w : World) :
  match m with
  | None => True
  | Some message =>
      keyFromMe message = true
      \/ (audioMessage message
          && bool_decide (keyRemoteJid message = content (groupJIDs E)) = false
          /\ match messageTextOf message with
             | None => True
             | Some text =>
                 trim text = []
                 \/ (parseCommand text = None
                     /\ keyRemoteJid message <> content (groupJIDs E))
             end)
  end ->
  handleIncomingMessages E handleVoiceMessage m w = (tt, w).
Proof.
  destruct m as [message|]; [|reflexivity]. cbn [handleIncomingMessages].
  intros [Hme|[Haudio Htext]]; [rewrite Hme; reflexivity|].
  destruct (keyFromMe message); [reflexivity|]. rewrite Haudio.
  destruct (messageTextOf message) as [text|]; [|reflexivity].
  destruct Htext as [Hblank|[Hparse Hchat]].
  - rewrite Hblank. cbn [truthy]. rewrite andb_false_r. reflexivity.
  - rewrite Hparse. rewrite bool_decide_eq_false_2 by exact Hchat.
    destruct (truthy text && truthy (trim text)); reflexivity.
Qed.

(** X24. A message that does not go to the voice handler leaves the
    headline store as it was unless its text is the agenda command. *)
Theorem incoming_text_leaves_store (E : Env)
    (handleVoiceMessage : Message -> str -> str -> M unit)
    (message : Message) (w : World) :
  audioMessage message
  && bool_decide (keyRemoteJid message = content (groupJIDs E)) = false ->
  (forall text, messageTextOf message = Some text ->
                parseCommand text <> Some Agenda) ->
  currentHeadlines
    (snd (handleIncomingMessages E handleVoiceMessage (Some message) w))
  = currentHeadlines w.
Proof.
  intros Haudio Hno. revert w.
  change (preserves currentHeadlines
            (handleIncomingMessages E handleVoiceMessage (Some message))).
  cbn [handleIncomingMessages]. rewrite Haudio.
  destruct (keyFromMe message); [frame|].
  destruct (messageTextOf message) as [text|]; [|frame].
  specialize (Hno text eq_refl).
  destruct (truthy text && truthy (trim text)); [|frame].
  destruct (parseCommand text) as [command|].
  - apply store_handleCommand. congruence.
  - destruct (bool_decide _); [apply store_processEditorial|frame].
Qed.

Lemma greeting_outside_content_group :
  handleIncomingMessages agendaEnv (fun _ _ _ => ret tt)
    (Some (textMessage (u "user@s.whatsapp.net") (u "MSG1") (u "hello there")))
    (emptyWorld 0)
  = (tt, emptyWorld 0).
Proof.
  apply (ignored_messages agendaEnv (fun _ _ _ => ret tt)
           (Some (textMessage (u "user@s.whatsapp.net") (u "MSG1")
                    (u "hello there")))
           (emptyWorld 0)).
  right. split; [reflexivity|]. right. split; [reflexivity|].
  vm_compute. discriminate.
Defined.

Lemma script_message_leaves_store :
  currentHeadlines
    (snd (handleIncomingMessages agendaEnv (fun _ _ _ => ret tt)
            (Some (textMessage (u "user@s.whatsapp.net") (u "MSG2")
                     (u "script: UN meeting")))
            afterAgenda))
  = currentHeadlines afterAgenda.
Proof.
  apply (incoming_text_leaves_store agendaEnv (fun _ _ _ => ret tt)
           (textMessage (u "user@s.whatsapp.net") (u "MSG2")
              (u "script: UN meeting"))
           afterAgenda).
  - reflexivity.
  - intros text Ht. vm_compute in Ht. injection Ht as <-. vm_compute.
    discriminate.
Defined.

(** ** Looking up the groups *)

Section GroupFacts.
Variable E : Env.

Lemma assignGroup_fields (table : GroupTable) (group : Group) :
  contentJid (assignGroup E table group)
  = (if named E (u "content") group then Some (groupId group)
     else contentJid table)
  /\ demoScriptJid (assignGroup E table group)
     = (if named E (u "demo script") group then Some (groupId group)
        else demoScriptJid table)
  /\ demoVisualJid (assignGroup E table group)
     = (if named E (u "demo visual") group then Some (groupId group)
        else demoVisualJid table).
Proof.
  unfold assignGroup, named. destruct (subject group) as [s|]; [|auto].
  cbv zeta.
  destruct (bool_decide_reflect (toLowerCase E s = u "content")) as [H1|H1].
  { rewrite H1. repeat split. }
  destruct (bool_decide_reflect (toLowerCase E s = u "demo script")) as [H2|H2].
  { rewrite H2. repeat split. }
  destruct (bool_decide_reflect (toLowerCase E s = u "demo visual")) as [H3|H3].
  { repeat split. }
  repeat split.
Qed.

Lemma lastNamed_snoc (name : str) (l : list Group) (x : Group) before :
  lastNamed E name (l ++ [x]) before
  = if named E name x then Some (groupId x) else lastNamed E name l before.
Proof.
  unfold lastNamed. rewrite rev_app_distr. cbn [rev app List.find].
  destruct (named E name x); reflexivity.
Qed.

Lemma assigned_fields (groupList : list Group) (table : GroupTable) :
  let table' := fold_left (assignGroup E) groupList table in
  contentJid table' = lastNamed E (u "content") groupList (contentJid table)
  /\ demoScriptJid table'
     = lastNamed E (u "demo script") groupList (demoScriptJid table)
  /\ demoVisualJid table'
     = lastNamed E (u "demo visual") groupList (demoVisualJid table).
Proof.
  cbv zeta. induction groupList as [|x l IH] using rev_ind.
  - repeat split.
  - rewrite fold_left_app. cbn [fold_left]. rewrite !lastNamed_snoc.
    destruct (assignGroup_fields (fold_left (assignGroup E) l table) x)
      as (-> & -> & ->).
    destruct IH as (-> & -> & ->). repeat split.
Qed.

Lemma findGroupJIDs_cases (groupList : list Group) (table : GroupTable) :
  let table' := fold_left (assignGroup E) groupList table in
  if missing (contentJid table') || missing (demoScriptJid table')
     || missing (demoVisualJid table')
  then exists names, findGroupJIDs E groupList table = Exit names
  else findGroupJIDs E groupList table = Ready table'.
Proof.
  cbv zeta. unfold findGroupJIDs, missingGroups.
  destruct (missing (contentJid _)), (missing (demoScriptJid _)),
    (missing (demoVisualJid _)); cbn; eauto.
Qed.

Lemma missing_lastNamed (name : str) (groupList : list Group) :
  Forall (fun group => groupId group <> []) groupList ->
  missing (lastNamed E name groupList None) = false
  <-> Exists (fun group => named E name group = true) groupList.
Proof.
  intros Hids. unfold lastNamed.
  destruct (List.find (named E name) (rev groupList)) as [group|] eqn:Hf.
  - apply find_some in Hf. destruct Hf as [Hin Hn].
    apply in_rev in Hin. split.
    + intros _. apply List.Exists_exists. eauto.
    + intros _. rewrite List.Forall_forall in Hids. specialize (Hids _ Hin).
      cbn [missing]. destruct (groupId group); [congruence|reflexivity].
  - split; [discriminate|]. intros Hex.
    apply List.Exists_exists in Hex. destruct Hex as (group & Hin & Hn).
    apply in_rev in Hin.
    rewrite (find_none _ _ Hf _ Hin) in Hn. discriminate.
Qed.

End GroupFacts.

(** X25. After the loop over the listed groups each entry of the table is
    the identifier of the last listed group whose subject is the entry's
    name up to case; an entry whose name is not listed keeps the value the
    table had, so an identifier found at an earlier connection survives a
    reconnection at which the group is gone. *)
Theorem last_listed_group_wins (E : Env) (groupList : list Group)
    (table : GroupTable) :
  let table' := fold_left (assignGroup E) groupList table in
  contentJid table' = lastNamed E (u "content") groupList (contentJid table)
  /\ demoScriptJid table'
     = lastNamed E (u "demo script") groupList (demoScriptJid table)
  /\ demoVisualJid table'
     = lastNamed E (u "demo visual") groupList (demoVisualJid table).
Proof.
  cbv zeta. induction groupList as [|group l IH] using rev_ind.
  - repeat split.
  - rewrite fold_left_app. cbn [fold_left]. rewrite !lastNamed_snoc.
    destruct (assignGroup_fields E (fold_left (assignGroup E) l table) group)
      as (-> & -> & ->).
    destruct IH as (-> & -> & ->). repeat split.
Qed.

(** X26. At the first connection, when the listed groups have non-empty
    identifiers, the lookup ends ready exactly if a group of each of the
    three names is listed; otherwise it ends in the exit of the process. *)
Theorem ready_iff_three_groups (E : Env) (groupList : list Group) :
  Forall (fun group => groupId group <> []) groupList ->
  (exists table, findGroupJIDs E groupList noGroups = Ready table)
  <-> Forall (fun name =>
                Exists (fun group => named E name group = true) groupList)
        [u "content"; u "demo script"; u "demo visual"].
Proof.
  intros Hids.
  pose proof (findGroupJIDs_cases E groupList noGroups) as Hc. cbv zeta in Hc.
  destruct (assigned_fields E groupList noGroups) as (Ha & Hb & Hd).
  rewrite Ha, Hb, Hd in Hc. cbn [contentJid demoScriptJid demoVisualJid noGroups] in Hc.
  pose proof (missing_lastNamed E (u "content") groupList Hids) as H1.
  pose proof (missing_lastNamed E (u "demo script") groupList Hids) as H2.
  pose proof (missing_lastNamed E (u "demo visual") groupList Hids) as H3.
  destruct (missing (lastNamed E (u "content") groupList None)) eqn:M1;
    [|destruct (missing (lastNamed E (u "demo script") groupList None)) eqn:M2;
      [|destruct (missing (lastNamed E (u "demo visual") groupList None)) eqn:M3]];
    cbn [orb] in Hc.
  - destruct Hc as [names Hc]. split.
    + intros [t Ht]. congruence.
    + intros Hall. inversion Hall as [|? ? Hx _]; subst.
      apply H1 in Hx. discriminate.
  - destruct Hc as [names Hc]. split.
    + intros [t Ht]. congruence.
    + intros Hall. inversion Hall as [|? ? _ Hall']; subst.
      inversion Hall' as [|? ? Hx _]; subst. apply H2 in Hx. discriminate.
  - destruct Hc as [names Hc]. split.
    + intros [t Ht]. congruence.
    + intros Hall. inversion Hall as [|? ? _ Hall']; subst.
      inversion Hall' as [|? ? _ Hall'']; subst.
      inversion Hall'' as [|? ? Hx _]; subst. apply H3 in Hx. discriminate.
  - split; [|eauto]. intros _.
    repeat constructor; [apply H1|apply H2|apply H3]; reflexivity.
Qed.

Lemma ready_with_example_groups :
  Forall (fun group => groupId group <> []) exampleGroups
  /\ exists table, findGroupJIDs agendaEnv exampleGroups noGroups = Ready table.
Proof.
  assert (Hids : Forall (fun group => groupId group <> []) exampleGroups).
  { repeat constructor; discriminate. }
  split; [exact Hids|].
  apply (proj2 (ready_iff_three_groups agendaEnv exampleGroups Hids)).
  constructor; [|constructor; [|constructor; [|constructor]]].
  - apply Exists_cons_hd. vm_compute. reflexivity.
  - do 2 apply Exists_cons_tl. apply Exists_cons_hd. vm_compute. reflexivity.
  - do 3 apply Exists_cons_tl. apply Exists_cons_hd. vm_compute. reflexivity.
Defined.
